(** * proglog: the store of the commit log (package [log], file store.go)

    A shallow embedding of [store] — a file wrapped in a buffered writer
    together with a [size] counter — and of its operations [newStore],
    [Append], [Read], [ReadAt] and [Close].

    The store calls into three Go packages.  Each gets a module of the same
    name below, holding just the operations the store uses:
    - [binary]: [encoding/binary], the big-endian codec behind [enc];
    - [os]: an open file ([*os.File]): contents, handle position, open
      flags;
    - [bufio]: [bufio.Writer] with its fixed-capacity buffer and sticky
      error.

    [store.mu] serialises the five methods, so every method is one atomic
    transition on the store; the embedding is state passing: a method takes
    the store before the call and returns the store after it together with
    the Go results. *)

From Stdlib Require Import ZArith List Lia Bool.
From coqutil Require Import Byte Word.LittleEndianList.
Import ListNotations.
Local Open Scope Z_scope.

(** ** Go integers (64-bit target) *)

(** Conversion to [uint64]: wrap-around modulo 2^64. *)
Definition to_uint64 (z : Z) : Z := z mod 2 ^ 64.

(** Conversion to [int64]: two's complement. *)
Definition to_int64 (z : Z) : Z := (z + 2 ^ 63) mod 2 ^ 64 - 2 ^ 63.

(** [int] is 64 bits wide on the targets considered. *)
Definition to_int (z : Z) : Z := to_int64 z.

Definition maxInt : Z := 2 ^ 63 - 1.

(** [len] of a slice, an [int]. *)
Definition len {A} (l : list A) : Z := Z.of_nat (length l).

(** The errors the model distinguishes. *)
Inductive error : Set :=
| ErrClosed          (* os.ErrClosed: use of a closed file *)
| EBADF              (* the handle's open flags do not allow the operation *)
| ENOENT             (* os.Stat: the name no longer exists *)
| ErrNegativeOffset  (* os.File.ReadAt: negative offset *)
| EOF                (* io.EOF: fewer bytes than asked for *)
| ErrShortWrite.     (* io.ErrShortWrite *)

(** What a call that may panic produces: a value, an error, or a run-time
    panic. *)
Inductive outcome (A : Type) : Type :=
| Ok (a : A)
| Err (e : error)
| Panic.
Arguments Ok {A} a.
Arguments Err {A} e.
Arguments Panic {A}.

(** [make([]byte, n)] with a run-time [n]: the runtime panics
    ("makeslice: len out of range") when [n] exceeds [maxAlloc], which is
    2^48 on 64-bit targets; below that the allocation is taken to succeed
    and yields [n] zero bytes. *)
Definition maxAlloc : Z := 2 ^ 48.

Definition make (n : Z) : option (list byte) :=
  if n <=? maxAlloc then Some (repeat Byte.x00 (Z.to_nat n)) else None.

(** ** encoding/binary *)

Module binary.

(** [binary.BigEndian.PutUint64]: the eight bytes of [v], most significant
    first. *)
Definition PutUint64 (v : Z) : list byte :=
  [ byte.of_Z (Z.shiftr v 56); byte.of_Z (Z.shiftr v 48);
    byte.of_Z (Z.shiftr v 40); byte.of_Z (Z.shiftr v 32);
    byte.of_Z (Z.shiftr v 24); byte.of_Z (Z.shiftr v 16);
    byte.of_Z (Z.shiftr v 8);  byte.of_Z v ].

(** [binary.BigEndian.Uint64]: reads [b[0..7]]; a slice shorter than eight
    bytes fails the bounds check ([None] stands for that panic). *)
Definition Uint64 (b : list byte) : option Z :=
  match b with
  | b0 :: b1 :: b2 :: b3 :: b4 :: b5 :: b6 :: b7 :: _ =>
      Some (Z.lor (byte.unsigned b7)
           (Z.lor (Z.shiftl (byte.unsigned b6) 8)
           (Z.lor (Z.shiftl (byte.unsigned b5) 16)
           (Z.lor (Z.shiftl (byte.unsigned b4) 24)
           (Z.lor (Z.shiftl (byte.unsigned b3) 32)
           (Z.lor (Z.shiftl (byte.unsigned b2) 40)
           (Z.lor (Z.shiftl (byte.unsigned b1) 48)
                  (Z.shiftl (byte.unsigned b0) 56))))))))
  | _ => None
  end.

End binary.

(** ** os: an open file *)

Module os.

Inductive openflag : Set := O_RDONLY | O_WRONLY | O_RDWR.

(** The part of an [*os.File] the store can observe.
    - [data]: the bytes of the file on disk;
    - [offset]: the position of the handle, where the next [Write] lands
      unless the handle is in append mode;
    - [flag], [append]: how the file was opened;
    - [closed]: [Close] has been called on the handle;
    - [linked]: the name of the file still resolves to it ([os.Stat]
      goes by name). *)
Record File : Type := mkFile {
  data : list byte;
  offset : nat;
  flag : openflag;
  append : bool;
  closed : bool;
  linked : bool
}.

Definition readable (f : File) : bool :=
  match flag f with O_WRONLY => false | _ => true end.

Definition writable (f : File) : bool :=
  match flag f with O_RDONLY => false | _ => true end.

(** [os.Stat(f.Name())] followed by [fi.Size()]. *)
Definition Stat (f : File) : error + Z :=
  if linked f then inr (to_int64 (len (data f))) else inl ENOENT.

(** Where the next write lands. *)
Definition wpos (f : File) : nat :=
  if append f then length (data f) else offset f.

(** The bytes of the file after [p] has been written at position [off]:
    a write past the end leaves a hole of zero bytes. *)
Definition pwrite (d : list byte) (off : nat) (p : list byte) : list byte :=
  firstn off d ++ repeat Byte.x00 (off - length d) ++ p
    ++ skipn (off + length p) d.

(** The file once a write of [p] has gone through; writing nothing
    changes nothing. *)
Definition put (f : File) (p : list byte) : File :=
  match p with
  | [] => f
  | _ => {| data := pwrite (data f) (wpos f) p;
            offset := wpos f + length p;
            flag := flag f; append := append f;
            closed := closed f; linked := linked f |}
  end.

(** [f.Write(p)]: the file after the call, the number of bytes written
    and the error. A write is refused as a whole on a closed handle and
    on one that is not open for writing. *)
Definition Write (f : File) (p : list byte) : File * nat * option error :=
  if closed f then (f, 0%nat, Some ErrClosed)
  else if writable f then (put f p, length p, None)
  else (f, 0%nat, Some EBADF).

(** [f.ReadAt(b, off)]: the buffer after the call, the number of bytes
    read and the error. The handle position is not used and not moved.
    An empty buffer returns at once; fewer than [len(b)] bytes available
    at [off] is [io.EOF]. *)
Definition ReadAt (f : File) (b : list byte) (off : Z)
  : list byte * nat * option error :=
  if off <? 0 then (b, 0%nat, Some ErrNegativeOffset)
  else match b with
  | [] => (b, 0%nat, None)
  | _ =>
    if closed f then (b, 0%nat, Some ErrClosed)
    else if readable f then
      let got := firstn (length b) (skipn (Z.to_nat off) (data f)) in
      (got ++ skipn (length got) b, length got,
       if (length got <? length b)%nat then Some EOF else None)
    else (b, 0%nat, Some EBADF)
  end.

(** [f.Close()]. *)
Definition Close (f : File) : File * option error :=
  if closed f then (f, Some ErrClosed)
  else ({| data := data f; offset := offset f; flag := flag f;
           append := append f; closed := true; linked := linked f |},
        None).

End os.

(** ** bufio: the buffered writer *)

Module bufio.

Definition defaultBufSize : nat := 4096.

(** A [bufio.Writer] of the default size: the bytes accepted and not yet
    written out, and the sticky error. The file it writes to is the
    store's own [File] (one handle, shared), so the operations take the
    file and give it back. *)
Record Writer : Type := mkWriter {
  buf : list byte;
  err : option error
}.

Definition NewWriter : Writer := {| buf := []; err := None |}.

Definition Buffered (b : Writer) : nat := length (buf b).

Definition Available (b : Writer) : nat := defaultBufSize - length (buf b).

(** [b.Flush()]. *)
Definition Flush (f : os.File) (b : Writer)
  : os.File * Writer * option error :=
  match err b with
  | Some e => (f, b, Some e)
  | None =>
    if (Buffered b =? 0)%nat then (f, b, None)
    else
      let '(f', n, e) := os.Write f (buf b) in
      let e := match e with
               | None => if (n <? Buffered b)%nat then Some ErrShortWrite
                         else None
               | Some _ => e
               end in
      match e with
      | Some e => (f', {| buf := skipn n (buf b); err := Some e |}, Some e)
      | None => (f', {| buf := []; err := None |}, None)
      end
  end.

(** [b.Write(p)] as the Go method has it, a loop: while [p] does not fit
    the free space and no error has occurred, either write [p] to the file
    directly (empty buffer) or fill the buffer from [p] and flush it; then
    copy what is left of [p] into the buffer. [nn] counts the bytes
    accepted so far; [fuel] bounds the number of turns ([None] when it
    runs out, which two turns never do, see [Write_loop_unrolled]). *)
Fixpoint Write_loop (fuel : nat) (f : os.File) (b : Writer) (p : list byte)
  (nn : nat) : option (os.File * Writer * nat * option error) :=
  if (Available b <? length p)%nat
     && match err b with None => true | Some _ => false end
  then
    match fuel with
    | O => None
    | S fuel' =>
      if (Buffered b =? 0)%nat then
        let '(f', n, e) := os.Write f p in
        Write_loop fuel' f' {| buf := buf b; err := e |} (skipn n p)
          (nn + n)
      else
        let c := firstn (Available b) p in
        let '(f', b', _) := Flush f {| buf := buf b ++ c; err := err b |} in
        Write_loop fuel' f' b' (skipn (length c) p) (nn + length c)
    end
  else
    match err b with
    | Some e => Some (f, b, nn, Some e)
    | None =>
      Some (f, {| buf := buf b ++ p; err := None |}, (nn + length p)%nat,
            None)
    end.

(** [b.Write(p)]: file and writer after the call, the number of bytes
    accepted and the error. The loop runs at most twice, and is written
    out here:
    - [p] fits the free space: it is copied into the buffer;
    - otherwise, with an empty buffer, [p] goes to the file directly;
    - otherwise the buffer is filled from [p] and flushed, and the rest
      of [p] is either copied into the now empty buffer or, when larger
      than the buffer, written to the file directly. *)
Definition Write (f : os.File) (b : Writer) (p : list byte)
  : os.File * Writer * nat * option error :=
  match err b with
  | Some e => (f, b, 0%nat, Some e)
  | None =>
    if (length p <=? Available b)%nat then
      (f, {| buf := buf b ++ p; err := None |}, length p, None)
    else if (Buffered b =? 0)%nat then
      let '(f', n, e) := os.Write f p in
      match e with
      | Some _ => (f', {| buf := buf b; err := e |}, n, e)
      | None => (f', b, n, None)
      end
    else
      let p1 := firstn (Available b) p in
      let p2 := skipn (Available b) p in
      let '(f1, b1, e1) := Flush f {| buf := buf b ++ p1; err := None |} in
      match e1 with
      | Some _ => (f1, b1, length p1, e1)
      | None =>
        if (length p2 <=? Available b1)%nat then
          (f1, {| buf := buf b1 ++ p2; err := None |},
           (length p1 + length p2)%nat, None)
        else
          let '(f2, n, e2) := os.Write f1 p2 in
          match e2 with
          | Some _ => (f2, {| buf := buf b1; err := e2 |},
                       (length p1 + n)%nat, e2)
          | None => (f2, b1, (length p1 + n)%nat, None)
          end
      end
  end.

End bufio.

(** [binary.Write(w, enc, v)] for a [uint64] [v] and the buffered writer:
    the eight bytes are encoded and handed to [w.Write] in one call. *)
Definition binary_Write (f : os.File) (w : bufio.Writer) (v : Z)
  : os.File * bufio.Writer * option error :=
  let '(f', w', _, e) := bufio.Write f w (binary.PutUint64 v) in (f', w', e).

(** ** The store *)

(** [lenWidth]: the number of bytes used to store the record's length. *)
Definition lenWidth : Z := 8.

(** [type store struct { *os.File; mu sync.Mutex; buf *bufio.Writer;
    size uint64 }]. *)
Record store : Type := mkStore {
  File : os.File;
  buf : bufio.Writer;
  size : Z
}.

(** [newStore(f)]. *)
Definition newStore (f : os.File) : error + store :=
  match os.Stat f with
  | inl e => inl e
  | inr fi_size =>
      let size := to_uint64 fi_size in
      inr {| File := f; size := size; buf := bufio.NewWriter |}
  end.

(** [s.Append(p)]: the store after the call and [(n, pos, err)]. *)
Definition Append (s : store) (p : list byte)
  : store * (Z * Z * option error) :=
  let pos := size s in
  let '(f1, w1, e1) := binary_Write (File s) (buf s) (to_uint64 (len p)) in
  match e1 with
  | Some e => ({| File := f1; buf := w1; size := size s |}, (0, 0, Some e))
  | None =>
    let '(f2, w2, w, e2) := bufio.Write f1 w1 p in
    match e2 with
    | Some e => ({| File := f2; buf := w2; size := size s |}, (0, 0, Some e))
    | None =>
      let n := to_uint64 (to_int (Z.of_nat w + lenWidth)) in
      ({| File := f2; buf := w2; size := n |}, (n, pos, None))
    end
  end.

(** [s.Read(pos)]: the store after the call and the record, the error, or
    the panic of an allocation that cannot be made. *)
Definition Read (s : store) (pos : Z) : store * outcome (list byte) :=
  let '(f, w, e) := bufio.Flush (File s) (buf s) in
  let s' := {| File := f; buf := w; size := size s |} in
  match e with
  | Some e => (s', Err e)
  | None =>
    match make lenWidth with
    | None => (s', Panic)
    | Some size_buf =>
      let '(size_buf, _, e) := os.ReadAt f size_buf (to_int64 pos) in
      match e with
      | Some e => (s', Err e)
      | None =>
        match binary.Uint64 size_buf with
        | None => (s', Panic)
        | Some l =>
          match make l with
          | None => (s', Panic)
          | Some b =>
            let '(b, _, e) :=
              os.ReadAt f b (to_int64 (to_uint64 (pos + lenWidth))) in
            match e with
            | Some e => (s', Err e)
            | None => (s', Ok b)
            end
          end
        end
      end
    end
  end.

(** [s.ReadAt(p, off)]: the store after the call and the buffer as the
    call leaves it, the number of bytes read and the error. *)
Definition ReadAt (s : store) (p : list byte) (off : Z)
  : store * (list byte * Z * option error) :=
  let '(f, w, e) := bufio.Flush (File s) (buf s) in
  let s' := {| File := f; buf := w; size := size s |} in
  match e with
  | Some e => (s', (p, 0, Some e))
  | None =>
    let '(p', n, e) := os.ReadAt f p off in (s', (p', Z.of_nat n, e))
  end.

(** [s.Close()]. *)
Definition Close (s : store) : store * option error :=
  let '(f, w, e) := bufio.Flush (File s) (buf s) in
  match e with
  | Some e => ({| File := f; buf := w; size := size s |}, Some e)
  | None =>
    let '(f', e') := os.Close f in
    ({| File := f'; buf := w; size := size s |}, e')
  end.

(** ** Derived notions used to state the properties *)

(** The store once its buffered writer has been flushed. *)
Definition flush (s : store) : store :=
  let '(f, w, _) := bufio.Flush (File s) (buf s) in
  {| File := f; buf := w; size := size s |}.

(** The file as it is once the bytes still in the buffer have reached it. *)
Definition settled (s : store) : os.File :=
  os.put (File s) (bufio.buf (buf s)).

(** The logical content of the store: file contents plus buffered bytes. *)
Definition logical (s : store) : list byte := os.data (settled s).

(** The logical end of the file, buffered-but-unflushed writes included. *)
Definition logical_end (s : store) : Z := len (logical s).

(** The place in the file where the next byte handed to the writer will
    land: the write position of the handle once the buffered bytes are
    out. On a handle that writes at the end of the file this is the
    logical end. *)
Definition write_end (s : store) : Z := Z.of_nat (os.wpos (settled s)).

(** The handle writes at the end of the file: it is in append mode, or its
    position is the end (a new file, or one only ever written through this
    handle). *)
Definition at_end (f : os.File) : Prop := os.wpos f = length (os.data f).

(** A store over a handle open for reading and writing whose writer has
    met no error. *)
Definition healthy (s : store) : Prop :=
  os.closed (File s) = false /\ os.flag (File s) = os.O_RDWR
  /\ bufio.err (buf s) = None.

(** ASCII text as bytes, for the examples. *)
Definition bytes_of (l : list Z) : list byte := map byte.of_Z l.

(** ["hello world"], the record of the test file ([write]), and three
    short records ["a"], ["bc"] and ["d"]. *)
Definition hello : list byte :=
  bytes_of [104; 101; 108; 108; 111; 32; 119; 111; 114; 108; 100].
Definition rec_a : list byte := bytes_of [97].
Definition rec_bc : list byte := bytes_of [98; 99].
Definition rec_d : list byte := bytes_of [100].

(** A new, empty file opened for reading and writing. *)
Definition empty_file : os.File :=
  {| os.data := []; os.offset := 0; os.flag := os.O_RDWR;
     os.append := false; os.closed := false; os.linked := true |}.

(** The store [newStore] builds over [empty_file]. *)
Definition fresh : store :=
  {| File := empty_file; buf := bufio.NewWriter; size := 0 |}.

(** An existing file of eleven bytes, opened for reading and writing in
    append mode. *)
Definition hello_file : os.File :=
  {| os.data := hello; os.offset := 0; os.flag := os.O_RDWR;
     os.append := true; os.closed := false; os.linked := true |}.


(** An empty file opened read-only. *)
Definition readonly_file : os.File :=
  {| os.data := []; os.offset := 0; os.flag := os.O_RDONLY;
     os.append := false; os.closed := false; os.linked := true |}.

(** The length prefix stored at [pos] in the bytes [d], when eight bytes
    are there. *)
Definition stored_len (d : list byte) (pos : Z) : option Z :=
  binary.Uint64 (firstn 8 (skipn (Z.to_nat pos) d)).

(** The error, if any, of flushing the store's writer. *)
Definition flush_err (s : store) : option error :=
  snd (bufio.Flush (File s) (buf s)).

(** A serialised run of [Append] calls: the store after the last one and
    the results [(n, pos, err)] in call order. *)
Fixpoint appends (s : store) (ps : list (list byte))
  : store * list (Z * Z * option error) :=
  match ps with
  | [] => (s, [])
  | p :: ps' =>
      let '(s1, r) := Append s p in
      let '(s2, rs) := appends s1 ps' in
      (s2, r :: rs)
  end.

(** The [size] field each call of a run of appends finds on entry. *)
Fixpoint observed_sizes (s : store) (ps : list (list byte)) : list Z :=
  match ps with
  | [] => []
  | p :: ps' => size s :: observed_sizes (fst (Append s p)) ps'
  end.

(** A run of reads on a store, each either [Read pos] or [ReadAt p off];
    the store after the last one. *)
Inductive read_op : Type :=
| DoRead (pos : Z)
| DoReadAt (p : list byte) (off : Z).

Definition run_read (s : store) (r : read_op) : store :=
  match r with
  | DoRead pos => fst (Read s pos)
  | DoReadAt p off => fst (ReadAt s p off)
  end.

Definition reads (s : store) (rs : list read_op) : store :=
  fold_left run_read rs s.

(** Any run of calls after that: reads and appends, with what each call
    returns. *)
Inductive op : Type :=
| Reading (r : read_op)
| Appending (p : list byte).

Inductive result : Type :=
| Appended (r : Z * Z * option error)
| ReadResult (r : outcome (list byte))
| ReadAtResult (r : list byte * Z * option error).

Definition step (s : store) (o : op) : store * result :=
  match o with
  | Appending p => let '(s', r) := Append s p in (s', Appended r)
  | Reading (DoRead pos) => let '(s', r) := Read s pos in (s', ReadResult r)
  | Reading (DoReadAt p off) =>
      let '(s', r) := ReadAt s p off in (s', ReadAtResult r)
  end.

Fixpoint run (s : store) (ops : list op) : list result :=
  match ops with
  | [] => []
  | o :: ops' => snd (step s o) :: run (fst (step s o)) ops'
  end.

(** Two stores that no run of calls tells apart on a handle open for
    writing: same [size], same file once the buffers are written out,
    same writer error. *)
Definition same_view (s t : store) : Prop :=
  size s = size t /\ settled s = settled t
  /\ bufio.err (buf s) = bufio.err (buf t).

(** The handle is open, for writing at least. *)
Definition usable (s : store) : Prop :=
  os.closed (File s) = false /\ os.writable (File s) = true.

(** Closes a goal [exists e, ... = Err e] once the call has been
    evaluated far enough. *)
Ltac is_err := intros; eexists; reflexivity.

(** Strictly increasing list of integers. *)
Fixpoint increasing (l : list Z) : bool :=
  match l with
  | x :: (y :: _) as t => (x <? y) && increasing t
  | _ => true
  end.


(** ** Further notions: layout, whole runs with [Close] *)

(** A record as [Append] lays it out: the length prefix, then the
    payload. *)
Definition frame (p : list byte) : list byte :=
  binary.PutUint64 (to_uint64 (len p)) ++ p.

(** Records laid out back to back. *)
Definition frames (ps : list (list byte)) : list byte :=
  concat (map frame ps).

(** The byte count a successful [Append(p)] returns. *)
Definition appended (p : list byte) : Z :=
  to_uint64 (to_int (len p + lenWidth)).

(** The [n] bytes of [d] from offset [off] on, as many as there are. *)
Definition slice (d : list byte) (off : Z) (n : nat) : list byte :=
  firstn n (skipn (Z.to_nat off) d).

(** A call of any of the four methods, and what it returns. *)
Inductive call : Type :=
| Call (o : op)
| CallClose.

Inductive reply : Type :=
| Reply (r : result)
| CloseReply (e : option error).

Definition exec (s : store) (c : call) : store * reply :=
  match c with
  | Call o => let '(s', r) := step s o in (s', Reply r)
  | CallClose => let '(s', e) := Close s in (s', CloseReply e)
  end.

(** A serialised run of calls: the store after the last one and the
    replies in call order. *)
Fixpoint exec_all (s : store) (cs : list call) : store * list reply :=
  match cs with
  | [] => (s, [])
  | c :: cs' =>
      let '(s1, r) := exec s c in
      let '(s2, rs) := exec_all s1 cs' in
      (s2, r :: rs)
  end.

(** The reply of a call that failed with [e] and returned nothing else:
    zero counts, no record. *)
Definition failed_with (e : error) (r : reply) : Prop :=
  match r with
  | Reply (Appended r) => r = (0, 0, Some e)
  | Reply (ReadResult r) => r = Err e
  | Reply (ReadAtResult (_, n, e')) => n = 0 /\ e' = Some e
  | CloseReply e' => e' = Some e
  end.

(** The position component of the results of a run of appends. *)
Definition positions (rs : list (Z * Z * option error)) : list Z :=
  map (fun r => snd (fst r)) rs.

(** All appends of a run succeeded. *)
Definition all_ok (rs : list (Z * Z * option error)) : Prop :=
  Forall (fun r => snd r = None) rs.
(** ** The codec *)

Section Codec.

Lemma PutUint64_length v : length (binary.PutUint64 v) = 8%nat.
Proof. reflexivity. Qed.

(** The big-endian codec is the little-endian one on the reversed
    bytes. *)
Lemma PutUint64_le v : binary.PutUint64 v = rev (le_split 8 v).
Proof.
  unfold binary.PutUint64. cbv [le_split rev app].
  rewrite !Z.shiftr_shiftr by lia. reflexivity.
Qed.

Lemma Uint64_le b0 b1 b2 b3 b4 b5 b6 b7 :
  binary.Uint64 [b0; b1; b2; b3; b4; b5; b6; b7]
  = Some (le_combine [b7; b6; b5; b4; b3; b2; b1; b0]).
Proof.
  unfold binary.Uint64. cbv [le_combine]. f_equal.
  rewrite Z.shiftl_0_l, Z.lor_0_r.
  rewrite !Z.shiftl_lor, !Z.shiftl_shiftl by lia. reflexivity.
Qed.

Lemma Uint64_PutUint64 v :
  0 <= v < 2 ^ 64 -> binary.Uint64 (binary.PutUint64 v) = Some v.
Proof.
  intros Hv. unfold binary.PutUint64. rewrite Uint64_le.
  assert (E : [byte.of_Z v; byte.of_Z (Z.shiftr v 8);
               byte.of_Z (Z.shiftr v 16); byte.of_Z (Z.shiftr v 24);
               byte.of_Z (Z.shiftr v 32); byte.of_Z (Z.shiftr v 40);
               byte.of_Z (Z.shiftr v 48); byte.of_Z (Z.shiftr v 56)]
              = le_split 8 v).
  { cbv [le_split]. rewrite !Z.shiftr_shiftr by lia. reflexivity. }
  rewrite E, le_combine_split. f_equal. apply Z.mod_small.
  change (2 ^ (Z.of_nat 8 * 8)) with (2 ^ 64). lia.
Qed.

Lemma to_uint64_small z : 0 <= z < 2 ^ 64 -> to_uint64 z = z.
Proof. intros H. unfold to_uint64. apply Z.mod_small. lia. Qed.

Lemma to_int64_small z : - 2 ^ 63 <= z < 2 ^ 63 -> to_int64 z = z.
Proof. intros H. unfold to_int64. rewrite Z.mod_small; lia. Qed.

Lemma to_uint64_range z : 0 <= to_uint64 z < 2 ^ 64.
Proof. unfold to_uint64. apply Z.mod_pos_bound. lia. Qed.

End Codec.

(** ** The file *)

Section FileFacts.

Lemma pwrite_at_end d p : os.pwrite d (length d) p = d ++ p.
Proof.
  unfold os.pwrite. rewrite firstn_all, Nat.sub_diag. simpl.
  rewrite skipn_all2 by lia. now rewrite app_nil_r.
Qed.

(** Two writes in a row are one write of the concatenation. *)
Lemma pwrite_pwrite d off a b :
  os.pwrite (os.pwrite d off a) (off + length a) b
  = os.pwrite d off (a ++ b).
Proof.
  unfold os.pwrite at 2 3.
  set (P := firstn off d ++ repeat Byte.x00 (off - length d)).
  assert (HP : length P = off)
    by (unfold P; rewrite length_app, length_firstn, repeat_length; lia).
  rewrite !(app_assoc (firstn off d)). fold P.
  unfold os.pwrite.
  replace (P ++ a ++ skipn (off + length a) d)
    with ((P ++ a) ++ skipn (off + length a) d) by now rewrite app_assoc.
  assert (HPa : length (P ++ a) = (off + length a)%nat)
    by (rewrite length_app; lia).
  set (S := skipn (off + length a) d).
  rewrite firstn_app, skipn_app, (length_app (P ++ a) S), HPa.
  rewrite <- HPa at 1. rewrite firstn_all.
  rewrite Nat.sub_diag, firstn_O, app_nil_r.
  replace (off + length a - (off + length a + length S))%nat with 0%nat by lia.
  rewrite skipn_all2 by lia. cbn [repeat app].
  unfold S. rewrite skipn_skipn, length_app.
  replace (off + length a + length b - (off + length a) + (off + length a))%nat
    with (off + (length a + length b))%nat by lia.
  now rewrite <- !app_assoc.
Qed.

(** The written bytes sit at [off], whatever was there. *)
Lemma pwrite_shape d off p :
  exists P S, length P = off /\ os.pwrite d off p = P ++ p ++ S.
Proof.
  exists (firstn off d ++ repeat Byte.x00 (off - length d)).
  exists (skipn (off + length p) d). split.
  - rewrite length_app, length_firstn, repeat_length. lia.
  - unfold os.pwrite. now rewrite <- app_assoc.
Qed.

Lemma pwrite_length d off p :
  length (os.pwrite d off p) = Nat.max (off + length p) (length d).
Proof.
  unfold os.pwrite.
  rewrite !length_app, length_firstn, repeat_length, length_skipn. lia.
Qed.

Variable f : os.File.

Lemma put_flags p :
  os.flag (os.put f p) = os.flag f /\ os.append (os.put f p) = os.append f
  /\ os.closed (os.put f p) = os.closed f
  /\ os.linked (os.put f p) = os.linked f.
Proof. destruct p; simpl; auto. Qed.

Lemma put_closed p : os.closed (os.put f p) = os.closed f.
Proof. apply put_flags. Qed.

Lemma put_flag p : os.flag (os.put f p) = os.flag f.
Proof. apply put_flags. Qed.

Lemma put_writable p : os.writable (os.put f p) = os.writable f.
Proof. unfold os.writable. now rewrite put_flag. Qed.

Lemma put_readable p : os.readable (os.put f p) = os.readable f.
Proof. unfold os.readable. now rewrite put_flag. Qed.

Lemma wpos_put p : os.wpos (os.put f p) = (os.wpos f + length p)%nat.
Proof.
  destruct p as [|x p]; [simpl; lia|].
  unfold os.put. unfold os.wpos. cbn [os.append os.data os.offset].
  destruct (os.append f); [|reflexivity].
  now rewrite pwrite_at_end, length_app.
Qed.

Lemma put_put a b : os.put (os.put f a) b = os.put f (a ++ b).
Proof.
  destruct b as [|y b]; [now rewrite app_nil_r|].
  destruct a as [|x a]; [reflexivity|].
  set (a' := x :: a). set (b' := y :: b).
  assert (W := wpos_put a'). 
  change (os.put (os.put f a') b')
    with {| os.data := os.pwrite (os.data (os.put f a')) (os.wpos (os.put f a')) b';
            os.offset := os.wpos (os.put f a') + length b';
            os.flag := os.flag (os.put f a');
            os.append := os.append (os.put f a');
            os.closed := os.closed (os.put f a');
            os.linked := os.linked (os.put f a') |}.
  rewrite W. cbn [os.put a' os.data os.flag os.append os.closed os.linked app].
  fold a'. rewrite pwrite_pwrite. f_equal.
  unfold a', b'. cbn [length app]. rewrite length_app. cbn [length]. lia.
Qed.

Lemma data_put_shape p :
  p <> [] ->
  exists P S, length P = os.wpos f /\ os.data (os.put f p) = P ++ p ++ S.
Proof.
  intros Hp. destruct p as [|x p]; [congruence|].
  cbn [os.put os.data]. apply pwrite_shape.
Qed.

Lemma data_put_at_end p :
  at_end f -> os.data (os.put f p) = os.data f ++ p.
Proof.
  unfold at_end. intros H. destruct p as [|x p]; [now rewrite app_nil_r|].
  cbn [os.put os.data]. rewrite H. apply pwrite_at_end.
Qed.

Lemma at_end_put p : at_end f -> at_end (os.put f p).
Proof.
  intros H. unfold at_end. rewrite wpos_put, data_put_at_end by assumption.
  rewrite length_app. unfold at_end in H. lia.
Qed.

Lemma os_Write_ok p :
  os.closed f = false -> os.writable f = true ->
  os.Write f p = (os.put f p, length p, None).
Proof. intros Hc Hw. unfold os.Write. now rewrite Hc, Hw. Qed.

(** A write either goes through as a whole or leaves the file alone. *)
Lemma os_Write_cases p f' n e :
  os.Write f p = (f', n, e) ->
  (e = None /\ f' = os.put f p /\ n = length p
   /\ os.closed f = false /\ os.writable f = true)
  \/ (e <> None /\ f' = f /\ n = 0%nat
      /\ (os.closed f = true \/ os.writable f = false)).
Proof.
  unfold os.Write. destruct (os.closed f) eqn:Hc.
  - intros [= <- <- <-]. right. repeat split; auto. discriminate.
  - destruct (os.writable f) eqn:Hw; intros [= <- <- <-].
    + left. auto.
    + right. repeat split; auto. discriminate.
Qed.

End FileFacts.

(** ** The buffered writer *)

Section FlushFacts.

Variables (f : os.File) (b : bufio.Writer).

(** [Flush] either empties the buffer into the file, or fails, leaves
    file and buffer as they are and keeps the error. *)
Lemma Flush_cases f' b' e :
  bufio.Flush f b = (f', b', e) ->
  (e = None /\ f' = os.put f (bufio.buf b) /\ b' = bufio.NewWriter
   /\ bufio.err b = None)
  \/ (e <> None /\ f' = f /\ bufio.buf b' = bufio.buf b
      /\ bufio.err b' = e).
Proof.
  unfold bufio.Flush, bufio.Buffered. destruct b as [bs [er|]]; simpl.
  - intros [= <- <- <-]. right. repeat split; auto. discriminate.
  - destruct bs as [|x bs]; simpl.
    + intros [= <- <- <-]. left. auto.
    + destruct (os.Write f (x :: bs)) as [[f1 n] e1] eqn:W.
      apply os_Write_cases in W.
      destruct W as [(-> & -> & -> & _)|(He & -> & -> & _)].
      * rewrite Nat.ltb_irrefl. intros [= <- <- <-]. left. auto.
      * destruct e1 as [e1|]; [|congruence].
        intros [= <- <- <-]. right. repeat split; auto.
Qed.

Lemma Flush_ok :
  os.closed f = false -> os.writable f = true -> bufio.err b = None ->
  bufio.Flush f b = (os.put f (bufio.buf b), bufio.NewWriter, None).
Proof.
  intros Hc Hw He. unfold bufio.Flush, bufio.Buffered. rewrite He.
  destruct b as [[|x bs] er]; simpl in *; subst; [reflexivity|].
  rewrite os_Write_ok by assumption. cbn [length].
  now rewrite Nat.ltb_irrefl.
Qed.

End FlushFacts.

Section WriteFacts.

Variables (f : os.File) (b : bufio.Writer).

(** A successful [Write] has accepted all of [p]; once the buffer is
    written out the file is the one a plain write of [p] after the
    earlier buffered bytes gives. *)
Lemma Write_success p f' b' n :
  bufio.Write f b p = (f', b', n, None) ->
  n = length p /\ bufio.err b = None /\ bufio.err b' = None
  /\ os.put f' (bufio.buf b') = os.put (os.put f (bufio.buf b)) p.
Proof.
  unfold bufio.Write. destruct (bufio.err b) eqn:He; [discriminate|].
  destruct (length p <=? bufio.Available b)%nat.
  { intros [= <- <- <-]. cbn. now rewrite put_put. }
  unfold bufio.Buffered.
  destruct (length (bufio.buf b) =? 0)%nat eqn:Hb.
  { apply Nat.eqb_eq, length_zero_iff_nil in Hb.
    destruct (os.Write f p) as [[f1 n1] e1] eqn:W.
    apply os_Write_cases in W.
    destruct W as [(-> & -> & -> & _)|(Hne & _)].
    - intros [= <- <- <-]. rewrite Hb. auto.
    - destruct e1; [discriminate|congruence]. }
  set (p1 := firstn (bufio.Available b) p).
  set (p2 := skipn (bufio.Available b) p).
  assert (Hp : p = p1 ++ p2) by (symmetry; apply firstn_skipn).
  destruct (bufio.Flush f _) as [[f1 b1] e1] eqn:F.
  apply Flush_cases in F. cbn [bufio.buf bufio.err] in F.
  destruct F as [(-> & -> & -> & _)|(Hne & _)];
    [|destruct e1; [discriminate|congruence]].
  cbn [bufio.buf bufio.NewWriter app].
  destruct (length p2 <=? _)%nat.
  { intros [= <- <- <-]. cbn [bufio.buf bufio.err].
    clearbody p1 p2. subst p.
    rewrite length_app, !put_put, <- app_assoc. auto. }
  destruct (os.Write _ p2) as [[f2 n2] e2] eqn:W.
  apply os_Write_cases in W.
  destruct W as [(-> & -> & -> & _)|(Hne & _)];
    [|destruct e2; [discriminate|congruence]].
  intros [= <- <- <-]. cbn [bufio.buf bufio.err bufio.NewWriter os.put].
  clearbody p1 p2. subst p.
  rewrite length_app, !put_put, <- app_assoc. auto.
Qed.

(** Whatever happens, [Write] changes the file by writing to it only. *)
Lemma Write_file p f' b' n e :
  bufio.Write f b p = (f', b', n, e) -> exists q, f' = os.put f q.
Proof.
  unfold bufio.Write. destruct (bufio.err b) eqn:He.
  { intros [= <- <- <- <-]. now exists []. }
  destruct (length p <=? bufio.Available b)%nat.
  { intros [= <- <- <- <-]. now exists []. }
  destruct (bufio.Buffered b =? 0)%nat.
  { destruct (os.Write f p) as [[f1 n1] e1] eqn:W.
    apply os_Write_cases in W.
    destruct W as [(-> & -> & -> & _)|(Hne & -> & _)].
    - intros [= <- <- <- <-]. eauto.
    - destruct e1; intros [= <- <- <- <-]; now exists []. }
  destruct (bufio.Flush f _) as [[f1 b1] e1] eqn:F.
  apply Flush_cases in F. cbn [bufio.buf bufio.err] in F.
  destruct F as [(-> & -> & -> & _)|(Hne & -> & _)].
  - destruct (_ <=? _)%nat.
    + intros [= <- <- <- <-]. eauto.
    + destruct (os.Write _ _) as [[f2 n2] e2] eqn:W.
      apply os_Write_cases in W.
      destruct W as [(-> & -> & -> & _)|(Hne & -> & _)].
      * intros [= <- <- <- <-]. rewrite put_put. eauto.
      * destruct e2; intros [= <- <- <- <-]; eauto.
  - destruct e1; [|congruence]. intros [= <- <- <- <-]. now exists [].
Qed.

(** On a handle open for writing nothing goes wrong. *)
Lemma Write_ok p :
  os.closed f = false -> os.writable f = true -> bufio.err b = None ->
  exists f' b', bufio.Write f b p = (f', b', length p, None).
Proof.
  intros Hc Hw He. unfold bufio.Write. rewrite He.
  destruct (length p <=? bufio.Available b)%nat; [eauto|].
  destruct (bufio.Buffered b =? 0)%nat.
  { rewrite os_Write_ok by assumption. eauto. }
  rewrite Flush_ok by auto.
  cbn [bufio.NewWriter bufio.buf].
  assert (Hl : (length (firstn (bufio.Available b) p)
                + length (skipn (bufio.Available b) p))%nat = length p)
    by (rewrite <- length_app, firstn_skipn; reflexivity).
  destruct (_ <=? _)%nat; [rewrite Hl; eauto|].
  rewrite os_Write_ok by (rewrite ?put_closed, ?put_writable; assumption).
  rewrite Hl. eauto.
Qed.

End WriteFacts.

(** The written-out [Write] is the loop of the Go method. *)
Lemma Writer_eta (b : bufio.Writer) :
  {| bufio.buf := bufio.buf b; bufio.err := bufio.err b |} = b.
Proof. now destruct b. Qed.

(** The loop is over as soon as what is left fits the buffer or the
    writer has an error, whatever fuel is left. *)
Lemma Write_loop_exit fuel f b p nn :
  (length p <= bufio.Available b)%nat \/ bufio.err b <> None ->
  bufio.Write_loop fuel f b p nn
  = match bufio.err b with
    | Some e => Some (f, b, nn, Some e)
    | None => Some (f, {| bufio.buf := bufio.buf b ++ p; bufio.err := None |},
                    (nn + length p)%nat, None)
    end.
Proof.
  intros H.
  assert (C : (bufio.Available b <? length p)%nat
              && match bufio.err b with None => true | Some _ => false end
              = false).
  { destruct H as [H|H].
    - apply Nat.ltb_ge in H. now rewrite H.
    - destruct (bufio.err b); [apply andb_false_r|congruence]. }
  destruct fuel; cbn [bufio.Write_loop]; now rewrite C.
Qed.

Lemma Write_loop_unrolled fuel f b p :
  (2 <= fuel)%nat ->
  bufio.Write_loop fuel f b p 0 = Some (bufio.Write f b p).
Proof.
  intros Hfuel. unfold bufio.Write.
  destruct (bufio.err b) eqn:He.
  { rewrite Write_loop_exit by (right; congruence). now rewrite He. }
  destruct (length p <=? bufio.Available b)%nat eqn:Hfit.
  { apply Nat.leb_le in Hfit. rewrite Write_loop_exit by auto.
    now rewrite He. }
  apply Nat.leb_gt in Hfit.
  destruct fuel as [|fuel]; [lia|]. cbn [bufio.Write_loop].
  assert ((bufio.Available b <? length p)%nat = true) as ->
    by (apply Nat.ltb_lt; lia).
  rewrite He. cbn [andb].
  destruct (bufio.Buffered b =? 0)%nat eqn:Hb.
  - destruct (os.Write f p) as [[f1 n1] e1] eqn:W.
    apply os_Write_cases in W.
    destruct W as [(-> & -> & -> & _)|(Hne & -> & -> & _)].
    + rewrite skipn_all, Write_loop_exit by (left; apply Nat.le_0_l).
      cbn [bufio.err bufio.buf length Nat.add].
      now rewrite app_nil_r, Nat.add_0_r, <- He, Writer_eta.
    + destruct e1 as [e1|]; [|congruence].
      rewrite Write_loop_exit by (right; discriminate). reflexivity.
  - set (c := firstn (bufio.Available b) p).
    assert (Hc : length c = bufio.Available b)
      by (unfold c; rewrite length_firstn; lia).
    destruct (bufio.Flush f _) as [[f1 b1] e1] eqn:F.
    apply Flush_cases in F. cbn [bufio.buf bufio.err] in F.
    destruct F as [(-> & -> & -> & _)|(Hne & -> & Hbuf & Herr)].
    + rewrite Hc. cbn [Nat.add].
      destruct (length (skipn (bufio.Available b) p)
                  <=? bufio.Available bufio.NewWriter)%nat eqn:Hfit2.
      * apply Nat.leb_le in Hfit2. rewrite Write_loop_exit by auto.
        reflexivity.
      * apply Nat.leb_gt in Hfit2.
        destruct fuel as [|fuel]; [lia|]. cbn [bufio.Write_loop].
        assert ((bufio.Available bufio.NewWriter
                   <? length (skipn (bufio.Available b) p))%nat = true) as ->
          by (apply Nat.ltb_lt; lia).
        change (bufio.err bufio.NewWriter) with (@None error).
        change (bufio.Buffered bufio.NewWriter) with 0%nat.
        change (bufio.buf bufio.NewWriter) with (@nil byte).
        cbn [andb Nat.eqb].
        destruct (os.Write _ _) as [[f2 n2] e2] eqn:W.
        apply os_Write_cases in W.
        destruct W as [(-> & -> & -> & _)|(Hne & -> & -> & _)].
        -- rewrite skipn_all, Write_loop_exit by (left; apply Nat.le_0_l).
           cbn [bufio.err bufio.buf length app].
           now rewrite Nat.add_0_r.
        -- destruct e2 as [e2|]; [|congruence].
           rewrite Write_loop_exit by (right; discriminate). reflexivity.
    + destruct e1 as [e1|]; [|congruence].
      rewrite Hc, Write_loop_exit by (right; congruence).
      rewrite Herr. reflexivity.
Qed.

(** ** The store: flushing and reading *)

Section ReadFacts.

Lemma Flush_Flush f b f' b' e :
  bufio.Flush f b = (f', b', e) -> bufio.Flush f' b' = (f', b', e).
Proof.
  intros F. apply Flush_cases in F.
  destruct F as [(-> & -> & -> & _)|(Hne & -> & Hb & He)].
  - reflexivity.
  - unfold bufio.Flush. rewrite He. destruct e; congruence.
Qed.

Variable s : store.

Lemma flush_size : size (flush s) = size s.
Proof. unfold flush. now destruct (bufio.Flush _ _) as [[? ?] ?]. Qed.

Lemma flush_flush : flush (flush s) = flush s.
Proof.
  unfold flush. destruct (bufio.Flush (File s) (buf s)) as [[f w] e] eqn:F.
  cbn [File buf size]. now rewrite (Flush_Flush _ _ _ _ _ F).
Qed.

(** Flushing moves bytes from the buffer to the file and changes nothing
    of what the file will hold. *)
Lemma settled_flush : settled (flush s) = settled s.
Proof.
  unfold flush, settled.
  destruct (bufio.Flush (File s) (buf s)) as [[f w] e] eqn:F.
  apply Flush_cases in F. cbn [File buf].
  destruct F as [(_ & -> & -> & _)|(_ & -> & -> & _)]; reflexivity.
Qed.

Lemma Read_state pos : fst (Read s pos) = flush s.
Proof.
  unfold Read, flush.
  destruct (bufio.Flush (File s) (buf s)) as [[f w] [e|]]; [reflexivity|].
  destruct (make lenWidth); [|reflexivity].
  destruct (os.ReadAt f l _) as [[? ?] [?|]]; [reflexivity|].
  destruct (binary.Uint64 _); [|reflexivity].
  destruct (make z); [|reflexivity].
  now destruct (os.ReadAt f l1 _) as [[? ?] [?|]].
Qed.

Lemma ReadAt_state p off : fst (ReadAt s p off) = flush s.
Proof.
  unfold ReadAt, flush.
  destruct (bufio.Flush (File s) (buf s)) as [[f w] [e|]]; [reflexivity|].
  now destruct (os.ReadAt f p off) as [[? ?] ?].
Qed.

(** A read on the flushed store returns what it returns on the store. *)
Lemma Read_flush pos : snd (Read (flush s) pos) = snd (Read s pos).
Proof.
  unfold flush, Read at 2.
  destruct (bufio.Flush (File s) (buf s)) as [[f w] e] eqn:F.
  unfold Read. cbn [File buf size]. rewrite (Flush_Flush _ _ _ _ _ F).
  reflexivity.
Qed.

Lemma ReadAt_flush p off :
  snd (ReadAt (flush s) p off) = snd (ReadAt s p off).
Proof.
  unfold flush, ReadAt at 2.
  destruct (bufio.Flush (File s) (buf s)) as [[f w] e] eqn:F.
  unfold ReadAt. cbn [File buf size]. rewrite (Flush_Flush _ _ _ _ _ F).
  reflexivity.
Qed.

(** On a store in working order the flush goes through. *)
Lemma flush_healthy :
  healthy s ->
  flush s = {| File := settled s; buf := bufio.NewWriter; size := size s |}.
Proof.
  intros (Hc & Hf & He). unfold flush, settled.
  rewrite Flush_ok; auto. unfold os.writable. now rewrite Hf.
Qed.

End ReadFacts.

Section PositionalRead.

Variable f : os.File.
Hypothesis Hopen : os.closed f = false.
Hypothesis Hread : os.readable f = true.

(** Reading exactly the bytes [x] that sit at [off]. *)
Lemma os_ReadAt_exact A x B b off :
  os.data f = A ++ x ++ B -> off = len A -> length b = length x ->
  os.ReadAt f b off = (x, length x, None).
Proof.
  intros Hd -> Hl. unfold os.ReadAt, len.
  assert ((Z.of_nat (length A) <? 0) = false) as -> by (apply Z.ltb_ge; lia).
  destruct b as [|y b].
  { destruct x; [reflexivity|discriminate]. }
  rewrite Hopen, Hread, Nat2Z.id, Hd, Hl.
  rewrite skipn_app, Nat.sub_diag, skipn_all. cbn [skipn app].
  rewrite firstn_app, Nat.sub_diag, firstn_all. cbn [firstn].
  rewrite app_nil_r, <- Hl, skipn_all, app_nil_r, Hl.
  now rewrite Nat.ltb_irrefl.
Qed.


End PositionalRead.


(** ** The store: appending *)

Section AppendFacts.

Variables (s : store) (p : list byte).

(** What a successful [Append] returns and leaves behind. *)
Lemma Append_success s' n pos :
  Append s p = (s', (n, pos, None)) ->
  n = to_uint64 (to_int (len p + lenWidth)) /\ pos = size s
  /\ size s' = n
  /\ settled s'
     = os.put (settled s) (binary.PutUint64 (to_uint64 (len p)) ++ p)
  /\ bufio.err (buf s) = None /\ bufio.err (buf s') = None
  /\ exists q, File s' = os.put (File s) q.
Proof.
  unfold Append, binary_Write.
  destruct (bufio.Write (File s) (buf s) _) as [[[f1 w1] n1] e1] eqn:W1.
  destruct e1; [discriminate|].
  destruct (bufio.Write f1 w1 p) as [[[f2 w2] w] e2] eqn:W2.
  destruct e2; [intros [= <- ? ? ?]; discriminate|].
  intros [= <- <- <-]. cbn [File buf size].
  destruct (Write_file _ _ _ _ _ _ _ W1) as (q1 & Hq1).
  destruct (Write_file _ _ _ _ _ _ _ W2) as (q2 & Hq2).
  apply Write_success in W1, W2.
  destruct W1 as (_ & He & _ & E1). destruct W2 as (-> & _ & He2 & E2).
  unfold settled. cbn [File buf]. rewrite E2, E1, !put_put. unfold len.
  repeat split; auto. exists (q1 ++ q2). now rewrite Hq2, Hq1, put_put.
Qed.

(** The bytes a successful [Append] hands to the writer. *)
Lemma Append_emits s' n pos :
  len p < 2 ^ 64 ->
  Append s p = (s', (n, pos, None)) ->
  settled s' = os.put (settled s) (binary.PutUint64 (len p) ++ p)
  /\ (at_end (File s) ->
      logical s' = logical s ++ binary.PutUint64 (len p) ++ p).
Proof.
  intros Hb HA. apply Append_success in HA.
  destruct HA as (_ & _ & _ & HS & _).
  rewrite to_uint64_small in HS by (unfold len in *; lia).
  split; [assumption|].
  intros He. unfold logical. rewrite HS. apply data_put_at_end.
  unfold settled. now apply at_end_put.
Qed.

(** Where the record of a successful [Append] lands: at the write end,
    length prefix first. *)
Lemma Append_lands s' n pos :
  len p < 2 ^ 64 ->
  Append s p = (s', (n, pos, None)) ->
  exists P S, len P = write_end s
    /\ logical s' = P ++ binary.PutUint64 (len p) ++ p ++ S.
Proof.
  intros Hb HA. destruct (Append_emits s' n pos Hb HA) as (HS & _).
  destruct (data_put_shape (settled s) (binary.PutUint64 (len p) ++ p))
    as (P & S & HP & HD); [discriminate|].
  exists P, S. unfold logical, write_end, len. rewrite HS, HD, HP.
  now rewrite <- app_assoc.
Qed.

Lemma write_end_at_end :
  at_end (File s) -> write_end s = logical_end s.
Proof.
  intros He. unfold write_end, logical_end, logical, len, settled.
  now rewrite (at_end_put (File s) _ He).
Qed.

(** On a handle open for writing [Append] succeeds. *)
Lemma Append_ok :
  os.closed (File s) = false -> os.writable (File s) = true ->
  bufio.err (buf s) = None ->
  exists s',
    Append s p = (s', (to_uint64 (to_int (len p + lenWidth)), size s, None)).
Proof.
  intros Hc Hw He. unfold Append, binary_Write.
  destruct (Write_ok (File s) (buf s)
              (binary.PutUint64 (to_uint64 (len p))) Hc Hw He)
    as (f1 & w1 & W1).
  rewrite W1.
  destruct (Write_file _ _ _ _ _ _ _ W1) as (q1 & ->).
  apply Write_success in W1. destruct W1 as (_ & _ & He1 & _).
  destruct (Write_ok (os.put (File s) q1) w1 p) as (f2 & w2 & W2);
    rewrite ?put_closed, ?put_writable; auto.
  rewrite W2. eauto.
Qed.

(** A failed [Append] returns zeros and leaves [size] alone. *)
Lemma Append_failure s' n pos e :
  Append s p = (s', (n, pos, Some e)) ->
  n = 0 /\ pos = 0 /\ size s' = size s.
Proof.
  unfold Append.
  destruct (binary_Write _ _ _) as [[f1 w1] [e1|]].
  { intros [= <- <- <- _]. auto. }
  destruct (bufio.Write f1 w1 p) as [[[f2 w2] w] [e2|]].
  { intros [= <- <- <- _]. auto. }
  discriminate.
Qed.

Lemma Append_healthy s' r :
  healthy s -> Append s p = (s', r) ->
  healthy s'
  /\ r = (to_uint64 (to_int (len p + lenWidth)), size s, None).
Proof.
  intros (Hc & Hf & He) HA.
  destruct Append_ok as (s1 & H1); auto.
  { unfold os.writable. now rewrite Hf. }
  rewrite H1 in HA. injection HA as <- <-. split; [|reflexivity].
  apply Append_success in H1.
  destruct H1 as (_ & _ & _ & _ & _ & He' & q & Hq).
  unfold healthy. now rewrite Hq, put_closed, put_flag.
Qed.

End AppendFacts.

Section RecordAt.

Variable s : store.
Hypothesis Hs : healthy s.

(** A record that sits in the logical content at [pos], length prefix
    first, is what [Read] returns for [pos]. *)
Lemma Read_record_at A x B pos :
  logical s = A ++ binary.PutUint64 (len x) ++ x ++ B ->
  pos = len A -> len x <= maxAlloc -> pos + lenWidth <= maxInt ->
  snd (Read s pos) = Ok x.
Proof.
  intros HL -> Hx Hp. destruct Hs as (Hc & Hf & He).
  assert (Hc' : os.closed (settled s) = false)
    by (unfold settled; now rewrite put_closed).
  assert (Hr' : os.readable (settled s) = true)
    by (unfold settled, os.readable; now rewrite put_flag, Hf).
  unfold maxAlloc in Hx. unfold lenWidth, maxInt in Hp. unfold len in *.
  unfold Read. rewrite Flush_ok; auto;
    [|unfold os.writable; now rewrite Hf].
  fold (settled s).
  change (make lenWidth) with (Some (repeat Byte.x00 8)). cbv beta iota.
  rewrite (os_ReadAt_exact (settled s) Hc' Hr' A
             (binary.PutUint64 (Z.of_nat (length x))) (x ++ B));
    [|assumption|apply to_int64_small; unfold len; lia|reflexivity].
  rewrite Uint64_PutUint64 by lia.
  unfold make, maxAlloc.
  assert ((Z.of_nat (length x) <=? 2 ^ 48) = true) as ->
    by (apply Z.leb_le; lia).
  cbv beta iota.
  rewrite (os_ReadAt_exact (settled s) Hc' Hr'
             (A ++ binary.PutUint64 (Z.of_nat (length x))) x B).
  - reflexivity.
  - fold (logical s). now rewrite HL, <- app_assoc.
  - unfold lenWidth, len. rewrite length_app, PutUint64_length.
    rewrite to_uint64_small, to_int64_small; lia.
  - now rewrite repeat_length, Nat2Z.id.
Qed.

End RecordAt.

(** ** Properties of the store *)

(** [fresh] is the store [newStore] builds over a new, empty file. *)
Lemma newStore_empty_file : newStore empty_file = inr fresh.
Proof. reflexivity. Qed.

(** C1 (size accounting). The claim: [size] always equals the logical end
    of the file, buffered bytes included; in particular every successful
    [Append(p)] leaves [size] at the size before the call plus
    [lenWidth + len(p)]. The code assigns [s.size = n] instead of adding:
    on a new store, after appending ["hello world"] twice, both calls
    succeed, the logical end of the file is 38, and [size] is 19, not
    19 + 8 + 11. *)
Theorem size_not_accumulated :
  let '(s1, r1) := Append fresh hello in
  let '(s2, r2) := Append s1 hello in
  newStore empty_file = inr fresh
  /\ r1 = (19, 0, None) /\ r2 = (19, 19, None)
  /\ size s1 = 19 /\ logical_end s1 = 19
  /\ size s2 = 19 /\ logical_end s2 = 38
  /\ size s2 <> size s1 + (lenWidth + len hello).
Proof. vm_compute. repeat split; discriminate. Qed.

(** C2 (round trip). The claim: every record appended to a new store is
    read back at the position its [Append] returned. With the records
    ["a"], ["bc"], ["d"] the third [Append] returns position 10 (the byte
    count of the second call) while the record starts at byte 19;
    [Read(10)] decodes a length from the middle of the second record and
    fails with [io.EOF]. *)
Theorem third_record_not_read_back :
  let '(s3, rs) := appends fresh [rec_a; rec_bc; rec_d] in
  newStore empty_file = inr fresh
  /\ rs = [(9, 0, None); (10, 9, None); (9, 10, None)]
  /\ snd (Read s3 0) = Ok rec_a
  /\ snd (Read s3 9) = Ok rec_bc
  /\ snd (Read s3 10) = Err EOF
  /\ snd (Read s3 19) = Ok rec_d.
Proof. vm_compute. repeat split. Qed.

(** C3 (monotone size). The claim: each append of a serialised run finds
    a [size] strictly greater than the one the append before it found.
    On a new store the appends of ["hello world"], ["a"], ["a"] all
    succeed and find the sizes 0, 19 and 9. *)
Theorem observed_sizes_not_increasing :
  let ps := [hello; rec_a; rec_a] in
  newStore empty_file = inr fresh
  /\ map snd (snd (appends fresh ps)) = [None; None; None]
  /\ observed_sizes fresh ps = [0; 19; 9]
  /\ increasing (observed_sizes fresh ps) = false.
Proof. vm_compute. repeat split. Qed.

(** C4 (what [Append] returns and writes). For every store and record,
    a successful [Append(p)] returns [n = lenWidth + len(p)] and the
    [size] the store had on entry as position, and the bytes it hands to
    the buffered writer are the big-endian eight-byte encoding of
    [len(p)] followed by [p]: once the buffer is written out the file is
    the one a plain write of these bytes after the earlier buffered ones
    gives, and on a handle that writes at the end of the file the
    logical content grows by exactly these bytes. [len(p) + lenWidth]
    is assumed to fit an [int]. *)
Theorem Append_returns_and_emits (s : store) (p : list byte) s' n pos :
  len p + lenWidth <= maxInt ->
  Append s p = (s', (n, pos, None)) ->
  n = lenWidth + len p
  /\ pos = size s
  /\ settled s' = os.put (settled s) (binary.PutUint64 (len p) ++ p)
  /\ (at_end (File s) ->
      logical s' = logical s ++ binary.PutUint64 (len p) ++ p).
Proof.
  intros Hb HA.
  destruct (Append_emits s p s' n pos) as (HS & HL); auto.
  { unfold maxInt, lenWidth, len in *. lia. }
  apply Append_success in HA. destruct HA as (-> & -> & _).
  unfold maxInt, lenWidth, len in *.
  unfold to_int. rewrite to_int64_small, to_uint64_small by lia.
  repeat split; auto. lia.
Qed.

Lemma Append_returns_and_emits_witness :
  19 = lenWidth + len hello
  /\ 0 = size fresh
  /\ settled (fst (Append fresh hello))
     = os.put (settled fresh) (binary.PutUint64 (len hello) ++ hello)
  /\ (at_end (File fresh) ->
      logical (fst (Append fresh hello))
      = logical fresh ++ binary.PutUint64 (len hello) ++ hello).
Proof.
  apply (Append_returns_and_emits fresh hello (fst (Append fresh hello)) 19 0).
  - vm_compute. discriminate.
  - reflexivity.
Defined.

(** While the bytes fit the buffer, [Append] does not touch the file. *)
Lemma Append_buffered (s : store) (p : list byte) :
  bufio.err (buf s) = None ->
  (length (bufio.buf (buf s)) + 8 + length p <= bufio.defaultBufSize)%nat ->
  let n := to_uint64 (to_int (len p + lenWidth)) in
  Append s p
  = ({| File := File s;
        buf := {| bufio.buf := bufio.buf (buf s)
                    ++ binary.PutUint64 (to_uint64 (len p)) ++ p;
                  bufio.err := None |};
        size := n |}, (n, size s, None)).
Proof.
  intros He Hl. unfold Append, binary_Write, bufio.Write at 1.
  rewrite He. unfold bufio.Available. rewrite PutUint64_length.
  assert ((8 <=? bufio.defaultBufSize - length (bufio.buf (buf s)))%nat = true)
    as -> by (apply Nat.leb_le; lia).
  unfold bufio.Write. cbn [bufio.err bufio.buf]. unfold bufio.Available.
  cbn [bufio.buf]. rewrite length_app, PutUint64_length.
  assert ((length p <=? bufio.defaultBufSize
             - (length (bufio.buf (buf s)) + 8))%nat = true)
    as -> by (apply Nat.leb_le; lia).
  now rewrite <- app_assoc.
Qed.

(** C5 (flush before read). [Append] leaves its bytes in the buffer as
    long as they fit; [Read] and [ReadAt] leave the store as [Flush]
    leaves it, with an empty buffer and every buffered byte in the file,
    and return what the flushed file holds. So after a successful
    [Append(p)] on a store in working order, [Read] at the place the
    record went to (the write end before the call, which is the logical
    end on a handle that writes at the end of the file) returns [p], and
    [ReadAt] there returns the length prefix followed by [p]. *)
Theorem reads_see_append (s : store) (p : list byte) s' n pos :
  healthy s ->
  len p <= maxAlloc -> write_end s + lenWidth <= maxInt ->
  Append s p = (s', (n, pos, None)) ->
  ((length (bufio.buf (buf s)) + 8 + length p <= bufio.defaultBufSize)%nat ->
   File s' = File s)
  /\ (forall q, fst (Read s' q) = flush s')
  /\ (forall b off, fst (ReadAt s' b off) = flush s')
  /\ bufio.buf (buf (flush s')) = []
  /\ os.data (File (flush s')) = logical s'
  /\ snd (Read s' (write_end s)) = Ok p
  /\ (forall b, length b = (8 + length p)%nat ->
      snd (ReadAt s' b (write_end s))
      = (binary.PutUint64 (len p) ++ p, lenWidth + len p, None))
  /\ (at_end (File s) ->
      write_end s = logical_end s
      /\ logical s' = logical s ++ binary.PutUint64 (len p) ++ p).
Proof.
  intros Hs Hp Hend HA.
  destruct (Append_healthy s p s' _ Hs HA) as (Hs' & _).
  assert (Hp64 : len p < 2 ^ 64) by (unfold maxAlloc, len in *; lia).
  destruct (Append_lands s p s' n pos Hp64 HA) as (P & S & HP & HL).
  split; [|split; [|split; [|split; [|split; [|split; [|split]]]]]].
  - intros Hfit. destruct Hs as (_ & _ & Her).
    rewrite (Append_buffered s p Her Hfit) in HA. now injection HA as <- _.
  - intros q. apply Read_state.
  - intros b off. apply ReadAt_state.
  - now rewrite flush_healthy.
  - now rewrite flush_healthy.
  - apply (Read_record_at s' Hs' P p S); auto.
  - intros b Hb. unfold ReadAt.
    destruct Hs' as (Hc & Hf & Her).
    rewrite Flush_ok; auto; [|unfold os.writable; now rewrite Hf].
    fold (settled s').
    rewrite (os_ReadAt_exact (settled s')) with
      (A := P) (x := binary.PutUint64 (len p) ++ p) (B := S).
    + cbn [snd]. rewrite length_app, PutUint64_length.
      repeat f_equal. unfold lenWidth, len. lia.
    + unfold settled. now rewrite put_closed.
    + unfold settled, os.readable. now rewrite put_flag, Hf.
    + fold (logical s'). now rewrite HL, <- app_assoc.
    + auto.
    + now rewrite length_app, PutUint64_length.
  - intros He. split; [now apply write_end_at_end|].
    now apply (Append_emits s p s' n pos).
Qed.

Lemma reads_see_append_witness :
  snd (Read (fst (Append fresh hello)) 0) = Ok hello
  /\ File (fst (Append fresh hello)) = File fresh.
Proof.
  destruct (reads_see_append fresh hello (fst (Append fresh hello)) 19 0)
    as (Hfile & _ & _ & _ & _ & Hread & _).
  - repeat split.
  - vm_compute. discriminate.
  - vm_compute. discriminate.
  - reflexivity.
  - split; [exact Hread|]. apply Hfile. vm_compute. lia.
Defined.

Section ReadErrors.


Lemma os_ReadAt_neg f b off :
  off < 0 -> os.ReadAt f b off = (b, 0%nat, Some ErrNegativeOffset).
Proof. intros H. unfold os.ReadAt. apply Z.ltb_lt in H. now rewrite H. Qed.

(** A read into a non-empty buffer that reports no error has filled the
    buffer from the file. *)
Lemma os_ReadAt_success f b off b' n :
  b <> [] -> os.ReadAt f b off = (b', n, None) ->
  0 <= off /\ b' = firstn (length b) (skipn (Z.to_nat off) (os.data f)).
Proof.
  intros Hb. unfold os.ReadAt. destruct (off <? 0) eqn:Hoff; [discriminate|].
  apply Z.ltb_ge in Hoff.
  destruct b as [|y b]; [congruence|].
  destruct (os.closed f); [discriminate|].
  destruct (os.readable f); [|discriminate].
  set (got := firstn _ _).
  destruct (length got <? length (y :: b))%nat eqn:Hg; [discriminate|].
  apply Nat.ltb_ge in Hg. intros [= <- _]. split; [assumption|].
  assert (length got = length (y :: b)).
  { apply Nat.le_antisymm; [|assumption].
    unfold got. rewrite length_firstn. lia. }
  rewrite H, skipn_all. apply app_nil_r.
Qed.

Lemma to_int64_nonneg pos :
  0 <= pos < 2 ^ 64 -> 0 <= to_int64 pos -> to_int64 pos = pos.
Proof.
  intros Hp H. unfold to_int64 in *.
  destruct (Z_lt_le_dec pos (2 ^ 63)).
  - rewrite Z.mod_small; lia.
  - replace (pos + 2 ^ 63) with (pos - 2 ^ 63 + 1 * 2 ^ 64) in H by lia.
    rewrite Z.mod_add, Z.mod_small in H; lia.
Qed.

End ReadErrors.




(** C7 (size recovered on construction). For every existing file of [k]
    bytes, [newStore] succeeds and yields a store over that file whose
    [size] is [k]; the first [Append] that succeeds on it returns [k] as
    position. ([k] fits an [int64], as file sizes do.) *)
Theorem newStore_recovers_size (f : os.File) :
  os.linked f = true -> len (os.data f) <= maxInt ->
  exists s,
    newStore f = inr s /\ File s = f /\ size s = len (os.data f)
    /\ bufio.buf (buf s) = []
    /\ forall p s' n pos,
         Append s p = (s', (n, pos, None)) -> pos = len (os.data f).
Proof.
  intros Hl Hk. unfold newStore, os.Stat. rewrite Hl.
  eexists. split; [reflexivity|]. cbn [File size buf bufio.buf bufio.NewWriter].
  assert (Hsz : to_uint64 (to_int64 (len (os.data f))) = len (os.data f)).
  { unfold maxInt, len in *.
    rewrite to_int64_small, to_uint64_small; lia. }
  repeat split; auto.
  intros p s' n pos HA. apply Append_success in HA.
  destruct HA as (_ & -> & _). exact Hsz.
Qed.

Lemma newStore_recovers_size_witness :
  exists s,
    newStore hello_file = inr s /\ File s = hello_file /\ size s = 11
    /\ bufio.buf (buf s) = []
    /\ forall p s' n pos, Append s p = (s', (n, pos, None)) -> pos = 11.
Proof.
  apply (newStore_recovers_size hello_file).
  - reflexivity.
  - vm_compute. discriminate.
Defined.

(** The first append on the store over the eleven-byte file does succeed,
    at position 11. *)
Example newStore_then_Append :
  exists s, newStore hello_file = inr s
    /\ snd (Append s rec_a) = (9, 11, None).
Proof. eexists. split; reflexivity. Qed.

(** [newStore] fails when the name of the file is gone. *)
Lemma newStore_unlinked (f : os.File) :
  os.linked f = false -> newStore f = inl ENOENT.
Proof. intros H. unfold newStore, os.Stat. now rewrite H. Qed.

(** C8 (close). [Close] flushes before it closes. When the flush fails,
    [Close] returns that error and leaves the file handle as it was, not
    closed by the call, the unwritten bytes still in the buffer. When the
    flush succeeds the file holds every byte that was buffered, the buffer
    is empty and the handle is closed; the result is that of closing the
    handle. *)
Theorem Close_flushes_then_closes (s : store) :
  (forall e, flush_err s = Some e ->
     snd (Close s) = Some e
     /\ File (fst (Close s)) = File s
     /\ bufio.buf (buf (fst (Close s))) = bufio.buf (buf s))
  /\ (flush_err s = None ->
      os.data (File (fst (Close s))) = logical s
      /\ bufio.buf (buf (fst (Close s))) = []
      /\ os.closed (File (fst (Close s))) = true
      /\ snd (Close s)
         = if os.closed (File s) then Some ErrClosed else None).
Proof.
  unfold flush_err, Close, logical, settled.
  destruct (bufio.Flush (File s) (buf s)) as [[f w] e] eqn:F.
  apply Flush_cases in F. cbn [snd].
  destruct F as [(-> & -> & -> & _)|(Hne & -> & Hb & He)].
  - split; [discriminate|]. intros _. unfold os.Close.
    rewrite put_closed.
    destruct (os.closed (File s)) eqn:Hc; cbn [fst snd File buf];
      rewrite ?put_closed; auto.
  - split; [|congruence]. intros e' ->. cbn [fst snd File buf]. auto.
Qed.

Lemma Close_flushes_then_closes_witness :
  (let s := fst (Append {| File := readonly_file; buf := bufio.NewWriter;
                           size := 0 |} hello) in
   snd (Close s) = Some EBADF
   /\ File (fst (Close s)) = File s
   /\ bufio.buf (buf (fst (Close s))) = bufio.buf (buf s))
  /\ (let s := fst (Append fresh hello) in
      os.data (File (fst (Close s))) = logical s
      /\ bufio.buf (buf (fst (Close s))) = []
      /\ os.closed (File (fst (Close s))) = true
      /\ snd (Close s) = if os.closed (File s) then Some ErrClosed else None).
Proof.
  split.
  - apply (Close_flushes_then_closes
             (fst (Append {| File := readonly_file; buf := bufio.NewWriter;
                             size := 0 |} hello))).
    reflexivity.
  - apply (Close_flushes_then_closes (fst (Append fresh hello))).
    reflexivity.
Defined.

(** C9 (empty record). The claim: appending an empty record writes the
    eight-byte prefix of zero, returns [n = 8] and the current position,
    and [Read] at that position returns an empty slice. [Append] returns
    [size] as position, and [size] is not the end of the file once two
    appends have been made: on a new store, after ["hello world"] and two
    empty records, the third [Append] returns [n = 8] and position 8, while
    the record sits at byte 27; [Read(8)] decodes a length from the bytes
    of ["hello world"] and panics in [make]. *)
Theorem empty_record_not_read_back :
  let '(s2, rs) := appends fresh [hello; []] in
  let '(s3, r3) := Append s2 [] in
  newStore empty_file = inr fresh
  /\ rs = [(19, 0, None); (8, 19, None)]
  /\ r3 = (8, 8, None)
  /\ logical_end s2 = 27
  /\ logical s3 = logical s2 ++ binary.PutUint64 0
  /\ snd (Read s3 8) = Panic
  /\ snd (Read s3 27) = Ok [].
Proof. vm_compute. repeat split. Qed.

(** Where [size] is the write end, as on a new store or after a single
    append, a record is appended at [size] and read back from there; so
    is the empty record. *)
Lemma Append_then_Read (s : store) (p : list byte) :
  healthy s -> size s = write_end s ->
  len p <= maxAlloc -> size s + lenWidth <= maxInt ->
  exists s', Append s p = (s', (lenWidth + len p, size s, None))
    /\ snd (Read s' (size s)) = Ok p.
Proof.
  intros Hs Hsz Hp Hb.
  destruct (Append s p) as [s' r] eqn:HA.
  destruct (Append_healthy s p s' r Hs HA) as (Hs' & ->).
  assert (Hp64 : len p < 2 ^ 64) by (unfold maxAlloc, len in *; lia).
  destruct (Append_lands s p s' _ _ Hp64 HA) as (P & S & HP & HL).
  exists s'. split.
  - repeat f_equal. unfold to_int, lenWidth, maxAlloc, len in *.
    rewrite to_int64_small, to_uint64_small; lia.
  - apply (Read_record_at s' Hs' P p S); auto. congruence.
Qed.

Corollary empty_record_at_write_end (s : store) :
  healthy s -> size s = write_end s -> size s + lenWidth <= maxInt ->
  exists s', Append s [] = (s', (8, size s, None))
    /\ snd (Read s' (size s)) = Ok [].
Proof.
  intros Hs Hsz Hb.
  apply (Append_then_Read s []); auto. vm_compute. discriminate.
Qed.

(** The same on a handle that writes at the end of the file, where the
    write end is the logical end. *)
Corollary empty_record_at_logical_end (s : store) :
  healthy s -> at_end (File s) -> size s = logical_end s ->
  size s + lenWidth <= maxInt ->
  exists s', Append s [] = (s', (8, size s, None))
    /\ snd (Read s' (size s)) = Ok [].
Proof.
  intros Hs He Hsz Hb. apply empty_record_at_write_end; auto.
  now rewrite write_end_at_end.
Qed.

(** ** Reads leave the store as a flush leaves it *)

Section ReadsFrame.

Lemma reads_flush s rs :
  reads s rs = match rs with [] => s | _ => flush s end.
Proof.
  destruct rs as [|r rs]; [reflexivity|].
  unfold reads. cbn [fold_left].
  assert (H1 : forall u r', run_read u r' = flush u)
    by (intros u [q|b off]; [apply Read_state|apply ReadAt_state]).
  rewrite H1. induction rs as [|r' rs IH]; [reflexivity|].
  cbn [fold_left]. now rewrite H1, flush_flush.
Qed.

Lemma store_eta (s : store) :
  {| File := File s; buf := buf s; size := size s |} = s.
Proof. now destruct s. Qed.

(** On a handle open for writing, a store and its flushed self look
    the same. *)
Lemma same_view_flush s : usable s -> same_view (flush s) s.
Proof.
  intros (Hc & Hw). unfold same_view.
  rewrite flush_size, settled_flush. repeat split.
  unfold flush. destruct (bufio.err (buf s)) eqn:He.
  - unfold bufio.Flush. now rewrite He.
  - now rewrite Flush_ok.
Qed.

Lemma same_view_usable s t : same_view s t -> usable s -> usable t.
Proof.
  intros (_ & Hst & _) (Hc & Hw). unfold usable, settled, os.writable in *.
  assert (H1 := put_closed (File s) (bufio.buf (buf s))).
  assert (H2 := put_flag (File s) (bufio.buf (buf s))).
  rewrite Hst in H1, H2. rewrite put_closed in H1. rewrite put_flag in H2.
  now rewrite H1, H2.
Qed.

(** After a flush that went through both stores are the same store. *)
Local Ltac same_done :=
  cbn; unfold usable, same_view, settled; cbn;
  rewrite ?put_closed, ?put_writable; auto 10.

(** One call on two stores that look the same: same result, and they
    still look the same. *)
Lemma step_same_view s t o :
  usable s -> same_view s t ->
  snd (step s o) = snd (step t o)
  /\ usable (fst (step s o))
  /\ same_view (fst (step s o)) (fst (step t o)).
Proof.
  intros Hu Hv. assert (Hu' := same_view_usable s t Hv Hu).
  destruct Hu as (Hc & Hw), Hu' as (Hc' & Hw'), Hv as (Hsz & Hst & He).
  destruct (bufio.err (buf s)) eqn:Hes; symmetry in He.
  - (* the writers carry an error: every call returns it, nothing moves *)
    assert (Fs : bufio.Flush (File s) (buf s) = (File s, buf s, Some e))
      by (unfold bufio.Flush; now rewrite Hes).
    assert (Ft : bufio.Flush (File t) (buf t) = (File t, buf t, Some e))
      by (unfold bufio.Flush; now rewrite He).
    destruct o as [[pos|b off]|p]; cbn [step].
    + unfold Read. rewrite Fs, Ft. cbn [fst snd]. rewrite !store_eta.
      unfold usable, same_view. repeat split; congruence.
    + unfold ReadAt. rewrite Fs, Ft. cbn [fst snd]. rewrite !store_eta.
      unfold usable, same_view. repeat split; congruence.
    + unfold Append, binary_Write, bufio.Write. rewrite Hes, He.
      cbn [fst snd]. rewrite !store_eta.
      unfold usable, same_view. repeat split; congruence.
  - rewrite (surjective_pairing (step s o)), (surjective_pairing (step t o)).
    destruct o as [[pos|b off]|p]; cbn [step].
    + unfold Read. rewrite !Flush_ok by assumption. fold (settled s).
      fold (settled t). rewrite Hst, Hsz.
      destruct (make lenWidth); [|same_done].
      destruct (os.ReadAt (settled t) l _) as [[? ?] [?|]]; [same_done|].
      destruct (binary.Uint64 _); [|same_done].
      destruct (make z); [|same_done].
      destruct (os.ReadAt (settled t) l1 _) as [[? ?] [?|]]; same_done.
    + unfold ReadAt. rewrite !Flush_ok by assumption. fold (settled s).
      fold (settled t). rewrite Hst, Hsz.
      destruct (os.ReadAt (settled t) b off) as [[? ?] ?]. same_done.
    + destruct (Append_ok s p Hc Hw Hes) as (s1 & A1).
      destruct (Append_ok t p Hc' Hw' He) as (t1 & A2).
      rewrite A1, A2. cbn [fst snd]. rewrite Hsz.
      apply Append_success in A1, A2.
      destruct A1 as (_ & _ & Z1 & S1 & _ & E1 & q1 & Q1).
      destruct A2 as (_ & _ & Z2 & S2 & _ & E2 & _).
      unfold usable, same_view.
      rewrite Q1, put_closed, put_writable, Z1, Z2, S1, S2, E1, E2, Hst.
      auto 10.
Qed.

Lemma run_same_view ops : forall s t,
  usable s -> same_view s t -> run s ops = run t ops.
Proof.
  induction ops as [|o ops IH]; intros s t Hu Hv; [reflexivity|].
  cbn [run]. destruct (step_same_view s t o Hu Hv) as (-> & Hu1 & Hv1).
  f_equal. now apply IH.
Qed.

End ReadsFrame.

(** C10, as amended (what reads change). Whatever reads are run on a
    store, in any number, [size] and the logical content (file contents
    plus buffered bytes) are what they were, and the store is left as a
    flush of the buffered writer leaves it: buffered bytes moved into the
    file or, when the flush fails, its error left in the writer. Every
    later [Read] and [ReadAt] returns what it would have returned without
    them; a later [Append] that succeeds returns the byte count and
    position it would have returned; and on a handle open for writing
    every later run of appends and reads returns the same results,
    positions and records alike. *)
Theorem reads_change_nothing (s : store) (rs : list read_op) :
  size (reads s rs) = size s
  /\ logical (reads s rs) = logical s
  /\ reads s rs = match rs with [] => s | _ => flush s end
  /\ (forall pos, snd (Read (reads s rs) pos) = snd (Read s pos))
  /\ (forall p off,
        snd (ReadAt (reads s rs) p off) = snd (ReadAt s p off))
  /\ (forall p s1 n1 pos1 s2 n2 pos2,
        Append s p = (s1, (n1, pos1, None)) ->
        Append (reads s rs) p = (s2, (n2, pos2, None)) ->
        n2 = n1 /\ pos2 = pos1)
  /\ (usable s -> forall ops, run (reads s rs) ops = run s ops).
Proof.
  rewrite reads_flush. destruct rs as [|r rs].
  { repeat split; auto; congruence. }
  split; [apply flush_size|].
  split; [unfold logical; now rewrite settled_flush|].
  split; [reflexivity|].
  split; [apply Read_flush|].
  split; [apply ReadAt_flush|].
  split.
  - intros p s1 n1 pos1 s2 n2 pos2 A1 A2.
    apply Append_success in A1, A2.
    destruct A1 as (-> & -> & _), A2 as (-> & -> & _).
    now rewrite flush_size.
  - intros Hu ops. apply run_same_view.
    + apply (same_view_usable s); [|assumption].
      destruct (same_view_flush s Hu) as (H1 & H2 & H3).
      unfold same_view. auto.
    + now apply same_view_flush.
Qed.

Lemma reads_change_nothing_witness :
  let s := fst (Append fresh hello) in
  let rs := [DoRead 0; DoReadAt (repeat Byte.x00 4) 8; DoRead 19] in
  let ops := [Appending rec_a; Reading (DoRead 19); Reading (DoRead 0)] in
  run (reads s rs) ops = run s ops
  /\ run s ops
     = [Appended (9, 19, None); ReadResult (Ok rec_a); ReadResult (Ok hello)].
Proof.
  split; [|reflexivity].
  apply (reads_change_nothing (fst (Append fresh hello))
           [DoRead 0; DoReadAt (repeat Byte.x00 4) 8; DoRead 19]).
  split; reflexivity.
Defined.

(** C10, as stated, fails: not for every store state. Over a file opened
    read-only, [newStore] and an [Append] of ["hello world"] succeed, the
    bytes waiting in the buffer. From there [Append("a")] returns
    [(9, 19, nil)]; after one [Read], whose flush fails and leaves its
    error in the writer, the same [Append] returns the error and no
    position. *)
Lemma read_then_append_readonly :
  exists s0,
    newStore readonly_file = inr s0
    /\ snd (Append s0 hello) = (19, 0, None)
    /\ let s := fst (Append s0 hello) in
       snd (Append s rec_a) = (9, 19, None)
       /\ snd (Read s 0) = Err EBADF
       /\ snd (Append (reads s [DoRead 0]) rec_a) = (0, 0, Some EBADF)
       /\ snd (Append (reads s [DoRead 0]) rec_a) <> snd (Append s rec_a).
Proof.
  eexists. split; [reflexivity|]. vm_compute.
  repeat split. discriminate.
Qed.

(** ** More on the codec *)

Lemma PutUint64_Uint64 b v :
  length b = 8%nat -> binary.Uint64 b = Some v ->
  0 <= v < 2 ^ 64 /\ binary.PutUint64 v = b.
Proof.
  intros Hl. do 8 (destruct b as [|? b]; [discriminate|]).
  destruct b; [|discriminate]. clear Hl.
  rewrite Uint64_le. intros [= <-].
  set (l := [b7; b6; b5; b4; b3; b2; b1; b0]).
  split.
  - pose proof (le_combine_bound l) as H.
    change (2 ^ (8 * Z.of_nat (length l))) with (2 ^ 64) in H. exact H.
  - rewrite PutUint64_le.
    change 8%nat with (length l). rewrite split_le_combine. reflexivity.
Qed.

Lemma Uint64_defined b :
  (8 <= length b)%nat -> exists v, binary.Uint64 b = Some v.
Proof.
  intros H. do 8 (destruct b as [|? b]; [simpl in H; lia|]).
  unfold binary.Uint64. eauto.
Qed.

(** ** The file under any write through the writer *)

(** What a write does to the bytes and to the write position depends on
    the bytes, the position and the append flag only. *)
Lemma put_ext f g p :
  os.data f = os.data g -> os.wpos f = os.wpos g ->
  os.data (os.put f p) = os.data (os.put g p)
  /\ os.wpos (os.put f p) = os.wpos (os.put g p).
Proof.
  intros Hd Hw. split; [|now rewrite !wpos_put, Hw].
  destruct p as [|x p]; [assumption|].
  cbn [os.put os.data]. now rewrite Hd, Hw.
Qed.

Lemma Flush_image f b f' b' e :
  bufio.Flush f b = (f', b', e) ->
  os.put f' (bufio.buf b') = os.put f (bufio.buf b).
Proof.
  intros F. apply Flush_cases in F.
  destruct F as [(_ & -> & -> & _)|(_ & -> & -> & _)]; reflexivity.
Qed.

(** Whether it succeeds or not, [Write] adds a part of [p] to what the
    file will hold, and nothing else. *)
Lemma Write_image f b p f' b' n e :
  bufio.Write f b p = (f', b', n, e) ->
  exists q, os.put f' (bufio.buf b')
            = os.put (os.put f (bufio.buf b)) q.
Proof.
  unfold bufio.Write. destruct (bufio.err b) eqn:He.
  { intros [= <- <- <- <-]. exists []. reflexivity. }
  destruct (length p <=? bufio.Available b)%nat.
  { intros [= <- <- <- <-]. exists p. cbn. now rewrite put_put. }
  unfold bufio.Buffered.
  destruct (length (bufio.buf b) =? 0)%nat eqn:Hb.
  { apply Nat.eqb_eq, length_zero_iff_nil in Hb. rewrite Hb.
    destruct (os.Write f p) as [[f1 n1] e1] eqn:W.
    apply os_Write_cases in W.
    destruct W as [(-> & -> & -> & _)|(Hne & -> & -> & _)].
    - intros [= <- <- <- <-]. exists p. now rewrite Hb.
    - destruct e1; intros [= <- <- <- <-]; exists []; cbn; now rewrite ?Hb. }
  set (p1 := firstn (bufio.Available b) p).
  set (p2 := skipn (bufio.Available b) p).
  destruct (bufio.Flush f _) as [[f1 b1] e1] eqn:F.
  assert (FI := Flush_image _ _ _ _ _ F). cbn [bufio.buf] in FI.
  apply Flush_cases in F. cbn [bufio.buf bufio.err] in F.
  destruct F as [(-> & -> & -> & _)|(Hne & -> & Hbuf & Herr)].
  - cbn [bufio.buf bufio.NewWriter app].
    destruct (_ <=? _)%nat.
    + intros [= <- <- <- <-]. cbn [bufio.buf].
      exists (p1 ++ p2). now rewrite !put_put, <- app_assoc.
    + destruct (os.Write _ _) as [[f2 n2] e2] eqn:W.
      apply os_Write_cases in W.
      destruct W as [(-> & -> & -> & _)|(Hne & -> & -> & _)].
      * intros [= <- <- <- <-]. cbn [bufio.buf].
        exists (p1 ++ p2). now rewrite !put_put, app_nil_r, <- app_assoc.
      * destruct e2; intros [= <- <- <- <-]; cbn [bufio.buf];
          exists p1; now rewrite !put_put, app_nil_r.
  - destruct e1; [|congruence]. intros [= <- <- <- <-].
    rewrite FI. exists p1. now rewrite put_put.
Qed.

(** On a handle that is closed or not open for writing nothing reaches
    the file. *)
Lemma os_Write_dead f p f' n e :
  os.closed f = true \/ os.writable f = false ->
  os.Write f p = (f', n, e) -> f' = f.
Proof.
  intros Hd W. apply os_Write_cases in W.
  destruct W as [(_ & _ & _ & Hc & Hw)|(_ & -> & _)]; [|reflexivity].
  destruct Hd; congruence.
Qed.

Lemma Flush_dead f b f' b' e :
  os.closed f = true \/ os.writable f = false ->
  bufio.Flush f b = (f', b', e) -> f' = f.
Proof.
  intros Hd. unfold bufio.Flush. destruct (bufio.err b).
  { now intros [= <- _ _]. }
  destruct (bufio.Buffered b =? 0)%nat; [now intros [= <- _ _]|].
  destruct (os.Write f (bufio.buf b)) as [[f1 n1] e1] eqn:W.
  apply (os_Write_dead _ _ _ _ _ Hd) in W. subst f1.
  destruct e1; [now intros [= <- _ _]|].
  destruct (n1 <? _)%nat; now intros [= <- _ _].
Qed.

Lemma Write_dead f b p f' b' n e :
  os.closed f = true \/ os.writable f = false ->
  bufio.Write f b p = (f', b', n, e) -> f' = f.
Proof.
  intros Hd. unfold bufio.Write. destruct (bufio.err b).
  { now intros [= <- _ _ _]. }
  destruct (_ <=? _)%nat; [now intros [= <- _ _ _]|].
  destruct (bufio.Buffered b =? 0)%nat.
  { destruct (os.Write f p) as [[f1 n1] e1] eqn:W.
    apply (os_Write_dead _ _ _ _ _ Hd) in W. subst f1.
    destruct e1; now intros [= <- _ _ _]. }
  destruct (bufio.Flush f _) as [[f1 b1] e1] eqn:F.
  apply (Flush_dead _ _ _ _ _ Hd) in F. subst f1.
  destruct e1; [now intros [= <- _ _ _]|].
  destruct (_ <=? _)%nat; [now intros [= <- _ _ _]|].
  destruct (os.Write f _) as [[f2 n2] e2] eqn:W.
  apply (os_Write_dead _ _ _ _ _ Hd) in W. subst f2.
  destruct e2; now intros [= <- _ _ _].
Qed.

(** ** Whole runs of calls *)

Section Runs.

(** Whatever it returns, [Append] adds bytes to what the file will hold
    and changes nothing else of it. *)
Lemma Append_image s p :
  exists q, settled (fst (Append s p)) = os.put (settled s) q.
Proof.
  unfold Append, binary_Write, settled.
  destruct (bufio.Write (File s) (buf s) _) as [[[f1 w1] n1] e1] eqn:W1.
  destruct (Write_image _ _ _ _ _ _ _ W1) as (q1 & E1).
  destruct e1; [exists q1; exact E1|].
  destruct (bufio.Write f1 w1 p) as [[[f2 w2] n2] e2] eqn:W2.
  destruct (Write_image _ _ _ _ _ _ _ W2) as (q2 & E2).
  exists (q1 ++ q2).
  destruct e2; cbn [fst File buf]; now rewrite E2, E1, put_put.
Qed.

Lemma step_image s o :
  exists q, settled (fst (step s o)) = os.put (settled s) q.
Proof.
  destruct o as [[pos|b off]|p]; cbn [step].
  - exists []. rewrite (surjective_pairing (Read s pos)). cbn [fst].
    now rewrite Read_state, settled_flush.
  - exists []. rewrite (surjective_pairing (ReadAt s b off)). cbn [fst].
    now rewrite ReadAt_state, settled_flush.
  - destruct (Append_image s p) as (q & Hq). exists q.
    now rewrite (surjective_pairing (Append s p)).
Qed.

Lemma Close_image s :
  os.data (settled (fst (Close s))) = os.data (settled s)
  /\ os.wpos (settled (fst (Close s))) = os.wpos (settled s).
Proof.
  unfold Close, settled.
  destruct (bufio.Flush (File s) (buf s)) as [[f w] e] eqn:F.
  apply Flush_image in F. rewrite <- F.
  destruct e; [split; reflexivity|].
  unfold os.Close. destruct (os.closed f); [split; reflexivity|].
  cbn [fst File buf]. apply put_ext; reflexivity.
Qed.

Lemma exec_image s c :
  exists q,
    os.data (settled (fst (exec s c))) = os.data (os.put (settled s) q)
    /\ os.wpos (settled (fst (exec s c))) = os.wpos (os.put (settled s) q).
Proof.
  destruct c as [o|]; cbn [exec].
  - destruct (step_image s o) as (q & Hq). exists q.
    rewrite (surjective_pairing (step s o)). cbn [fst]. now rewrite Hq.
  - exists []. rewrite (surjective_pairing (Close s)). cbn [fst os.put].
    apply Close_image.
Qed.

Lemma exec_all_cons s c cs :
  exec_all s (c :: cs)
  = (fst (exec_all (fst (exec s c)) cs),
     snd (exec s c) :: snd (exec_all (fst (exec s c)) cs)).
Proof.
  cbn [exec_all]. destruct (exec s c) as [s1 r]. cbn [fst snd].
  destruct (exec_all s1 cs). reflexivity.
Qed.

(** On a handle that writes at the end of the file, a run of calls only
    ever adds bytes at the end of the logical content. *)
Lemma exec_all_grows cs : forall s,
  at_end (settled s) ->
  exists q, logical (fst (exec_all s cs)) = logical s ++ q
            /\ at_end (settled (fst (exec_all s cs))).
Proof.
  induction cs as [|c cs IH]; intros s He.
  { exists []. cbn. now rewrite app_nil_r. }
  rewrite exec_all_cons. cbn [fst].
  destruct (exec_image s c) as (q & Hd & Hw).
  assert (He1 : at_end (settled (fst (exec s c)))).
  { unfold at_end. rewrite Hd, Hw. now apply at_end_put. }
  destruct (IH _ He1) as (q' & HL & He2).
  exists (q ++ q'). split; [|assumption].
  rewrite HL. unfold logical at 1. rewrite Hd, data_put_at_end by assumption.
  unfold logical. now rewrite app_assoc.
Qed.

(** With an error in the writer every call returns that error and leaves
    the store as it is. *)
Lemma exec_wedged s e c :
  bufio.err (buf s) = Some e ->
  fst (exec s c) = s /\ failed_with e (snd (exec s c)).
Proof.
  intros He.
  assert (F : bufio.Flush (File s) (buf s) = (File s, buf s, Some e))
    by (unfold bufio.Flush; now rewrite He).
  destruct c as [[[pos|b off]|p]|]; cbn [exec step].
  - unfold Read. rewrite F. cbn. now rewrite store_eta.
  - unfold ReadAt. rewrite F. cbn. now rewrite store_eta.
  - unfold Append, binary_Write, bufio.Write. rewrite He. cbn.
    now rewrite store_eta.
  - unfold Close. rewrite F. cbn. now rewrite store_eta.
Qed.

(** Nothing reaches a file through a handle that is closed or not open
    for writing. *)
Lemma exec_dead s c :
  os.closed (File s) = true \/ os.writable (File s) = false ->
  os.data (File (fst (exec s c))) = os.data (File s)
  /\ (os.closed (File (fst (exec s c))) = true
      \/ os.writable (File (fst (exec s c))) = false).
Proof.
  intros Hd.
  assert (Hflush : File (flush s) = File s).
  { unfold flush. destruct (bufio.Flush _ _) as [[f w] e] eqn:F.
    now apply (Flush_dead _ _ _ _ _ Hd) in F. }
  destruct c as [[[pos|b off]|p]|]; cbn [exec step].
  - rewrite (surjective_pairing (Read s pos)). cbn [fst].
    rewrite Read_state, Hflush. auto.
  - rewrite (surjective_pairing (ReadAt s b off)). cbn [fst].
    rewrite ReadAt_state, Hflush. auto.
  - unfold Append, binary_Write.
    destruct (bufio.Write (File s) (buf s) _) as [[[f1 w1] n1] e1] eqn:W1.
    apply (Write_dead _ _ _ _ _ _ _ Hd) in W1. subst f1.
    destruct e1; [auto|].
    destruct (bufio.Write (File s) w1 p) as [[[f2 w2] n2] e2] eqn:W2.
    apply (Write_dead _ _ _ _ _ _ _ Hd) in W2. subst f2.
    destruct e2; auto.
  - unfold Close. destruct (bufio.Flush _ _) as [[f w] e] eqn:F.
    apply (Flush_dead _ _ _ _ _ Hd) in F. subst f. destruct e; [auto|].
    unfold os.Close. destruct (os.closed (File s)) eqn:Hc; cbn; auto.
Qed.

Lemma exec_all_dead cs : forall s,
  os.closed (File s) = true \/ os.writable (File s) = false ->
  os.data (File (fst (exec_all s cs))) = os.data (File s).
Proof.
  induction cs as [|c cs IH]; intros s Hd; [reflexivity|].
  rewrite exec_all_cons. cbn [fst].
  destruct (exec_dead s c Hd) as (Hdata & Hd').
  now rewrite IH.
Qed.

End Runs.

(** ** Runs of appends on a store in working order *)

Section AppendRuns.

Lemma appends_cons s p ps :
  appends s (p :: ps)
  = (fst (appends (fst (Append s p)) ps),
     snd (Append s p) :: snd (appends (fst (Append s p)) ps)).
Proof.
  cbn [appends]. destruct (Append s p) as [s1 r]. cbn [fst snd].
  destruct (appends s1 ps). reflexivity.
Qed.

Lemma appended_small p :
  len p + lenWidth <= maxInt -> appended p = lenWidth + len p.
Proof.
  intros H. unfold appended, to_int, maxInt, lenWidth, len in *.
  rewrite to_int64_small, to_uint64_small; lia.
Qed.

Lemma frame_length p : len (frame p) = lenWidth + len p.
Proof.
  unfold frame, len, lenWidth. rewrite length_app, PutUint64_length. lia.
Qed.

Lemma frames_app ps qs : frames (ps ++ qs) = frames ps ++ frames qs.
Proof. unfold frames. now rewrite map_app, concat_app. Qed.

Lemma frames_cons p ps : frames (p :: ps) = frame p ++ frames ps.
Proof. reflexivity. Qed.

Lemma last_cons {A} (l : list A) : forall a d, last (a :: l) d = last l a.
Proof.
  induction l as [|b l IH]; intros a d; [reflexivity|].
  change (last (a :: b :: l) d) with (last (b :: l) d).
  now rewrite !IH.
Qed.

(** One append on a store in working order. *)
Lemma Append_working s p :
  healthy s ->
  snd (Append s p) = (appended p, size s, None)
  /\ healthy (fst (Append s p))
  /\ size (fst (Append s p)) = appended p
  /\ settled (fst (Append s p)) = os.put (settled s) (frame p).
Proof.
  intros Hs. destruct (Append s p) as [s' r] eqn:HA.
  destruct (Append_healthy s p s' r Hs HA) as (Hs' & ->).
  apply Append_success in HA.
  destruct HA as (_ & _ & Hsz & HS & _). cbn [fst snd]. auto.
Qed.

Lemma appends_working ps : forall s,
  healthy s ->
  all_ok (snd (appends s ps))
  /\ healthy (fst (appends s ps))
  /\ settled (fst (appends s ps)) = os.put (settled s) (frames ps)
  /\ map (fun r => fst (fst r)) (snd (appends s ps)) = map appended ps
  /\ positions (snd (appends s ps))
     = match ps with
       | [] => []
       | _ => size s :: map appended (removelast ps)
       end
  /\ size (fst (appends s ps))
     = match ps with [] => size s | p :: ps' => appended (last ps' p) end.
Proof.
  induction ps as [|p ps IH]; intros s Hs.
  { cbn [appends fst snd map positions].
    split; [constructor|]. split; [assumption|]. split; [reflexivity|].
    auto. }
  rewrite appends_cons. cbn [fst snd].
  destruct (Append_working s p Hs) as (Hr & Hs1 & Hsz & HS).
  destruct (IH _ Hs1) as (Hok & Hs2 & HS2 & Hn & Hpos & Hsize).
  rewrite Hr. cbn [map positions fst snd].
  split; [constructor; [reflexivity|assumption]|].
  split; [assumption|].
  split; [now rewrite HS2, HS, put_put, frames_cons|].
  split; [now rewrite Hn|].
  split.
  - fold (positions (snd (appends (fst (Append s p)) ps))). rewrite Hpos.
    destruct ps as [|p' ps]; [reflexivity|].
    rewrite Hsz. reflexivity.
  - rewrite Hsize. destruct ps as [|p' ps]; [exact Hsz|].
    now rewrite last_cons.
Qed.

(** The logical content after a run of appends on a handle that writes
    at the end of the file. *)
Lemma appends_logical s ps :
  healthy s -> at_end (File s) ->
  healthy (fst (appends s ps))
  /\ logical (fst (appends s ps)) = logical s ++ frames ps.
Proof.
  intros Hs He.
  destruct (appends_working ps s Hs) as (_ & Hs' & HS & _).
  split; [assumption|].
  unfold logical. rewrite HS. apply data_put_at_end.
  unfold settled. now apply at_end_put.
Qed.

(** Each record of the run is read back from where it was laid out. *)
Lemma Read_in_place s ps1 p ps2 :
  healthy s -> at_end (File s) ->
  len p <= maxAlloc ->
  logical_end s + len (frames ps1) + lenWidth <= maxInt ->
  snd (Read (fst (appends s (ps1 ++ p :: ps2)))
         (logical_end s + len (frames ps1))) = Ok p.
Proof.
  intros Hs He Hp Hb.
  destruct (appends_logical s (ps1 ++ p :: ps2) Hs He) as (Hs' & HL).
  apply (Read_record_at _ Hs' (logical s ++ frames ps1) p (frames ps2));
    auto.
  - rewrite HL, frames_app, frames_cons. unfold frame.
    rewrite to_uint64_small by (unfold maxAlloc, len in *; lia).
    now rewrite <- !app_assoc.
  - unfold logical_end, len. rewrite length_app. lia.
Qed.

End AppendRuns.

(** ** Further properties of the store *)

(** X1 (the length prefix codec, [enc] and [lenWidth]). Encoding a
    [uint64] gives [lenWidth] bytes that decode to the same number, and
    every string of [lenWidth] bytes decodes to a [uint64] that encodes
    back to it: the prefix written for a record determines its length and
    nothing else does. *)
Theorem length_prefix_codec :
  (forall v, 0 <= v < 2 ^ 64 ->
     len (binary.PutUint64 v) = lenWidth
     /\ binary.Uint64 (binary.PutUint64 v) = Some v)
  /\ (forall b, len b = lenWidth ->
        exists v, 0 <= v < 2 ^ 64 /\ binary.Uint64 b = Some v
                  /\ binary.PutUint64 v = b).
Proof.
  split.
  - intros v Hv. split; [reflexivity|now apply Uint64_PutUint64].
  - intros b Hb. unfold len, lenWidth in Hb.
    assert (Hl : length b = 8%nat) by lia.
    destruct (Uint64_defined b) as (v & Hv); [lia|].
    exists v. destruct (PutUint64_Uint64 b v Hl Hv). auto.
Qed.

Lemma length_prefix_codec_witness :
  binary.Uint64 (binary.PutUint64 11) = Some 11
  /\ exists v, 0 <= v < 2 ^ 64
       /\ binary.Uint64 (repeat Byte.xff 8) = Some v
       /\ binary.PutUint64 v = repeat Byte.xff 8.
Proof.
  destruct length_prefix_codec as (Henc & Hdec). split.
  - apply (Henc 11). lia.
  - apply (Hdec (repeat Byte.xff 8)). reflexivity.
Defined.

(** X2 (layout of the store file). On a store in working order whose
    handle writes at the end of the file, every [Append] of a run
    succeeds and the logical content grows by the records laid out back
    to back, each as its eight-byte big-endian length followed by its
    bytes, with nothing in between. *)
Theorem appends_lay_out_frames (s : store) (ps : list (list byte)) :
  healthy s -> at_end (File s) ->
  all_ok (snd (appends s ps))
  /\ healthy (fst (appends s ps))
  /\ logical (fst (appends s ps)) = logical s ++ frames ps
  /\ logical_end (fst (appends s ps)) = logical_end s + len (frames ps).
Proof.
  intros Hs He.
  destruct (appends_working ps s Hs) as (Hok & _).
  destruct (appends_logical s ps Hs He) as (Hs' & HL).
  split; [assumption|]. split; [assumption|]. split; [assumption|].
  unfold logical_end, len. rewrite HL, length_app. lia.
Qed.

Lemma appends_lay_out_frames_witness :
  logical (fst (appends fresh [rec_a; rec_bc; rec_d]))
  = logical fresh ++ frames [rec_a; rec_bc; rec_d].
Proof.
  apply (appends_lay_out_frames fresh [rec_a; rec_bc; rec_d]).
  - repeat split.
  - reflexivity.
Defined.

(** X3 (what a run of appends returns). On a store in working order the
    appends of a run return, as byte counts, eight plus the length of
    their own record and, as positions, the [size] of the store for the
    first and the byte count of the append before for every other one;
    after the run [size] is the byte count of the last append. The
    counts are [lenWidth + len(p)] for every record that fits an [int]. *)
Theorem appends_return (s : store) (p : list byte) (ps : list (list byte)) :
  healthy s ->
  map (fun r => fst (fst r)) (snd (appends s (p :: ps)))
  = map appended (p :: ps)
  /\ positions (snd (appends s (p :: ps)))
     = size s :: map appended (removelast (p :: ps))
  /\ size (fst (appends s (p :: ps))) = appended (last ps p)
  /\ (forall q, len q + lenWidth <= maxInt -> appended q = lenWidth + len q).
Proof.
  intros Hs.
  destruct (appends_working (p :: ps) s Hs) as (_ & _ & _ & Hn & Hp & Hsz).
  repeat split; auto. apply appended_small.
Qed.

Lemma appends_return_witness :
  positions (snd (appends fresh [hello; rec_a; rec_bc]))
  = [0; appended hello; appended rec_a]
  /\ size (fst (appends fresh [hello; rec_a; rec_bc])) = appended rec_bc.
Proof.
  destruct (appends_return fresh hello [rec_a; rec_bc]) as (_ & Hp & Hs & _).
  - repeat split.
  - split; [exact Hp|exact Hs].
Defined.

(** X4 (records are read back where they lie). After a run of appends on
    a store in working order whose handle writes at the end of the file,
    the [i]-th record of the run is read back by [Read] at the byte
    offset where it was laid out: the logical end before the run plus
    the frames of the [i] records before it. *)
Theorem records_read_back_in_place (s : store) ps (i : nat) p :
  healthy s -> at_end (File s) ->
  nth_error ps i = Some p ->
  len p <= maxAlloc ->
  logical_end s + len (frames (firstn i ps)) + lenWidth <= maxInt ->
  snd (Read (fst (appends s ps))
         (logical_end s + len (frames (firstn i ps)))) = Ok p.
Proof.
  intros Hs He Hi Hp Hb.
  destruct (nth_error_split ps i Hi) as (l1 & l2 & -> & Hlen).
  assert (E : firstn i (l1 ++ p :: l2) = l1).
  { rewrite <- Hlen, firstn_app, Nat.sub_diag, firstn_all. cbn [firstn].
    apply app_nil_r. }
  rewrite E in *. now apply Read_in_place.
Qed.

Lemma records_read_back_in_place_witness :
  snd (Read (fst (appends fresh [rec_a; rec_bc; rec_d])) 19) = Ok rec_d.
Proof.
  apply (records_read_back_in_place fresh [rec_a; rec_bc; rec_d] 2 rec_d).
  - repeat split.
  - reflexivity.
  - reflexivity.
  - vm_compute. discriminate.
  - vm_compute. discriminate.
Defined.

(** X5 (the first two records of an empty store). On a store in working
    order over an empty file with [size] 0, the first two appends return
    the positions 0 and [lenWidth + len(p1)], and [Read] at these
    positions returns the two records. *)
Theorem first_two_records_round_trip (s : store) (p1 p2 : list byte) :
  healthy s -> at_end (File s) -> logical s = [] -> size s = 0 ->
  len p1 <= maxAlloc -> len p2 <= maxAlloc ->
  let '(s2, rs) := appends s [p1; p2] in
  rs = [(lenWidth + len p1, 0, None);
        (lenWidth + len p2, lenWidth + len p1, None)]
  /\ snd (Read s2 0) = Ok p1
  /\ snd (Read s2 (lenWidth + len p1)) = Ok p2.
Proof.
  intros Hs He Hnil Hsz Hp1 Hp2.
  assert (Hi1 : len p1 + lenWidth <= maxInt)
    by (unfold maxAlloc, maxInt, lenWidth in *; lia).
  assert (Hi2 : len p2 + lenWidth <= maxInt)
    by (unfold maxAlloc, maxInt, lenWidth in *; lia).
  assert (Hend : logical_end s = 0)
    by (unfold logical_end; now rewrite Hnil).
  destruct (appends_working [p1; p2] s Hs) as (Hok & _ & _ & Hn & Hp & _).
  assert (R1 := Read_in_place s [] p1 [p2] Hs He Hp1).
  assert (R2 := Read_in_place s [p1] p2 [] Hs He Hp2).
  cbn [app] in R1, R2.
  change (frames []) with (@nil byte) in R1.
  change (frames [p1]) with (frame p1 ++ []) in R2.
  rewrite app_nil_r, frame_length, Hend in R2. rewrite Hend in R1.
  change (len (@nil byte)) with 0 in R1.
  destruct (appends s [p1; p2]) as [s2 rs].
  cbn [fst snd] in *.
  split; [|split].
  - destruct rs as [|[[n1 q1] e1] [|[[n2 q2] e2] [|? ?]]]; try discriminate.
    cbn in Hn, Hp. inversion Hok as [|? ? E1 Hok']. subst.
    inversion Hok' as [|? ? E2 _]. subst. cbn in E1, E2. subst.
    injection Hn as -> ->. injection Hp as -> ->.
    now rewrite Hsz, !appended_small by assumption.
  - apply R1. unfold maxInt, lenWidth. lia.
  - rewrite Z.add_0_l in R2. apply R2.
    unfold maxAlloc, maxInt, lenWidth in *. lia.
Qed.

Lemma first_two_records_round_trip_witness :
  snd (appends fresh [hello; rec_a]) = [(19, 0, None); (9, 19, None)]
  /\ snd (Read (fst (appends fresh [hello; rec_a])) 0) = Ok hello
  /\ snd (Read (fst (appends fresh [hello; rec_a])) 19) = Ok rec_a.
Proof.
  generalize (first_two_records_round_trip fresh hello rec_a).
  destruct (appends fresh [hello; rec_a]) as [s2 rs] eqn:E.
  intros H. cbn [fst snd]. apply H.
  - repeat split.
  - reflexivity.
  - reflexivity.
  - reflexivity.
  - vm_compute. discriminate.
  - vm_compute. discriminate.
Defined.

Section ReadAtFacts.

(** A read into a non-empty buffer that reports no error found all the
    bytes asked for in the file. *)
Lemma os_ReadAt_full f b off b' n :
  b <> [] -> os.ReadAt f b off = (b', n, None) ->
  0 <= off
  /\ b' = firstn (length b) (skipn (Z.to_nat off) (os.data f))
  /\ length b' = length b
  /\ (Z.to_nat off + length b <= length (os.data f))%nat.
Proof.
  intros Hb R. destruct (os_ReadAt_success f b off b' n Hb R) as (Hoff & E).
  split; [assumption|]. split; [assumption|].
  unfold os.ReadAt in R. destruct (off <? 0); [discriminate|].
  destruct b as [|y b]; [congruence|].
  destruct (os.closed f); [discriminate|].
  destruct (os.readable f); [|discriminate].
  destruct (_ <? _)%nat eqn:Hg; [discriminate|].
  apply Nat.ltb_ge in Hg. rewrite length_firstn, length_skipn in Hg.
  rewrite E, length_firstn, length_skipn. cbn [length] in *. lia.
Qed.

(** What [ReadAt] on an open, readable file returns. *)
Lemma os_ReadAt_open f b off :
  os.closed f = false -> os.readable f = true -> 0 <= off ->
  os.ReadAt f b off
  = let got := slice (os.data f) off (length b) in
    (got ++ skipn (length got) b, length got,
     if (length got <? length b)%nat then Some EOF else None).
Proof.
  intros Hc Hr Hoff. unfold os.ReadAt, slice.
  assert ((off <? 0) = false) as -> by (apply Z.ltb_ge; lia).
  destruct b as [|y b]; [reflexivity|].
  now rewrite Hc, Hr.
Qed.

(** A failed [Write] leaves its error in the writer. *)
Lemma Write_error_sticky f b p f' b' n e :
  bufio.Write f b p = (f', b', n, Some e) -> bufio.err b' = Some e.
Proof.
  unfold bufio.Write. destruct (bufio.err b) eqn:He.
  { intros [= <- <- <- <-]. assumption. }
  destruct (_ <=? _)%nat; [discriminate|].
  destruct (bufio.Buffered b =? 0)%nat.
  { destruct (os.Write f p) as [[f1 n1] [e1|]];
      [now intros [= <- <- <- <-]|discriminate]. }
  destruct (bufio.Flush f _) as [[f1 b1] e1] eqn:F.
  apply Flush_cases in F.
  destruct F as [(-> & -> & -> & _)|(Hne & -> & Hbuf & Herr)].
  - destruct (_ <=? _)%nat; [discriminate|].
    destruct (os.Write _ _) as [[f2 n2] [e2|]];
      [now intros [= <- <- <- <-]|discriminate].
  - destruct e1; [|congruence]. now intros [= <- <- <- <-].
Qed.

End ReadAtFacts.

(** X6 ([ReadAt] reads the logical content). On a store in working order
    [ReadAt(p, off)], for an offset such that [off + len(p)] fits an
    [int64], refuses a negative offset and otherwise copies into [p] the
    bytes of the logical content, buffered bytes included, from [off] on:
    as many as [p] holds or as there are, the rest of [p] left as it was;
    it returns their number, and [io.EOF] exactly when they are fewer
    than [len(p)]. *)
Theorem ReadAt_reads_logical_content (s : store) (p : list byte) (off : Z) :
  healthy s -> off + len p <= maxInt ->
  snd (ReadAt s p off)
  = if off <? 0 then (p, 0, Some ErrNegativeOffset)
    else
      let got := slice (logical s) off (length p) in
      (got ++ skipn (length got) p, len got,
       if (length got <? length p)%nat then Some EOF else None).
Proof.
  intros (Hc & Hf & He) _. unfold ReadAt.
  rewrite Flush_ok; auto; [|unfold os.writable; now rewrite Hf].
  fold (settled s). fold (logical s).
  destruct (off <? 0) eqn:Hoff.
  - apply Z.ltb_lt in Hoff. now rewrite os_ReadAt_neg.
  - apply Z.ltb_ge in Hoff. rewrite os_ReadAt_open; auto.
    + unfold settled. now rewrite put_closed.
    + unfold settled, os.readable. now rewrite put_flag, Hf.
Qed.

Lemma ReadAt_reads_logical_content_witness :
  snd (ReadAt (fst (Append fresh hello)) (repeat Byte.x00 4) 17)
  = (bytes_of [108; 100; 0; 0], 2, Some EOF).
Proof.
  rewrite (ReadAt_reads_logical_content (fst (Append fresh hello))
             (repeat Byte.x00 4) 17).
  - reflexivity.
  - repeat split.
  - vm_compute. discriminate.
Defined.

(** X7 (what [Read] returns is stored). Whatever the state of the store,
    a record returned by [Read(pos)] is what the logical content holds
    at [pos]: eight bytes that decode to a length [l] no larger than
    [maxAlloc], followed by at least [l] bytes, of which the record is
    the first [l]. *)
Theorem Read_Ok_is_stored_record (s : store) (pos : Z) (r : list byte) :
  0 <= pos < 2 ^ 64 ->
  snd (Read s pos) = Ok r ->
  exists l,
    stored_len (logical s) pos = Some l
    /\ len r = l /\ l <= maxAlloc
    /\ pos + lenWidth + l <= logical_end s
    /\ r = slice (logical s) (pos + lenWidth) (Z.to_nat l).
Proof.
  intros Hpos. unfold Read, logical_end, logical, settled.
  destruct (bufio.Flush (File s) (buf s)) as [[f w] e] eqn:F.
  apply Flush_cases in F.
  destruct F as [(-> & -> & -> & _)|(Hne & _)];
    [|destruct e; [discriminate|congruence]].
  set (D := os.data (os.put (File s) (bufio.buf (buf s)))).
  change (make lenWidth) with (Some (repeat Byte.x00 8)). cbv beta iota.
  destruct (os.ReadAt _ _ (to_int64 pos)) as [[b1 n1] [e1|]] eqn:R1;
    [discriminate|].
  apply os_ReadAt_full in R1; [|discriminate].
  destruct R1 as (Hnn & -> & _ & Hlen1).
  rewrite (to_int64_nonneg pos Hpos Hnn) in *. fold D in Hlen1 |- *.
  rewrite repeat_length in *.
  assert (Hpos63 : pos < 2 ^ 63).
  { unfold to_int64 in Hnn.
    destruct (Z_lt_le_dec pos (2 ^ 63)); [assumption|].
    replace (pos + 2 ^ 63) with (pos - 2 ^ 63 + 1 * 2 ^ 64) in Hnn by lia.
    rewrite Z.mod_add, Z.mod_small in Hnn; lia. }
  unfold stored_len.
  destruct (binary.Uint64 _) as [l|] eqn:HU; [|discriminate].
  assert (Hl0 : 0 <= l < 2 ^ 64).
  { apply (PutUint64_Uint64 (firstn 8 (skipn (Z.to_nat pos) D))); auto.
    rewrite length_firstn, length_skipn. lia. }
  unfold make. destruct (l <=? maxAlloc) eqn:Hm; [|discriminate].
  apply Z.leb_le in Hm.
  unfold lenWidth in *. rewrite to_uint64_small by lia.
  destruct (os.ReadAt _ _ _) as [[b2 n2] [e2|]] eqn:R2; [discriminate|].
  intros [= <-]. exists l. split; [reflexivity|].
  destruct (Z.eq_dec l 0) as [->|Hl].
  - cbn [Z.to_nat repeat] in R2.
    unfold os.ReadAt in R2. destruct (_ <? 0); [discriminate|].
    injection R2 as <- _. unfold slice, len. cbn. repeat split; lia.
  - apply os_ReadAt_full in R2.
    2:{ destruct (Z.to_nat l) eqn:E; [lia|discriminate]. }
    destruct R2 as (Hnn2 & -> & Hlen & Hfit).
    rewrite repeat_length in *.
    rewrite to_int64_nonneg in * by lia.
    fold D in Hlen, Hfit |- *.
    unfold slice, len. rewrite Hlen. repeat split; lia.
Qed.

Lemma Read_Ok_is_stored_record_witness :
  exists l,
    stored_len (logical (fst (Append fresh hello))) 0 = Some l
    /\ len hello = l /\ l <= maxAlloc
    /\ 0 + lenWidth + l <= logical_end (fst (Append fresh hello))
    /\ hello = slice (logical (fst (Append fresh hello))) (0 + lenWidth)
                 (Z.to_nat l).
Proof.
  apply (Read_Ok_is_stored_record (fst (Append fresh hello)) 0 hello).
  - lia.
  - reflexivity.
Defined.

(** X8 (an error in the writer is final). Once the buffered writer holds
    an error, every call of [Append], [Read], [ReadAt] and [Close], in
    any run, returns that error with zero counts and no record, and
    leaves the store as it is: the file is neither written nor closed. *)
Theorem writer_error_is_final (s : store) (e : error) (cs : list call) :
  bufio.err (buf s) = Some e ->
  fst (exec_all s cs) = s
  /\ Forall (failed_with e) (snd (exec_all s cs)).
Proof.
  intros He. induction cs as [|c cs (IH1 & IH2)]; [now split|].
  rewrite exec_all_cons. destruct (exec_wedged s e c He) as (-> & Hf).
  cbn [fst snd]. split; [assumption|]. now constructor.
Qed.

Lemma writer_error_is_final_witness :
  let s := fst (Read (fst (Append {| File := readonly_file;
                                     buf := bufio.NewWriter; size := 0 |}
                             hello)) 0) in
  fst (exec_all s [Call (Appending rec_a); CallClose]) = s
  /\ Forall (failed_with EBADF)
       (snd (exec_all s [Call (Appending rec_a); CallClose])).
Proof.
  apply (writer_error_is_final
           (fst (Read (fst (Append {| File := readonly_file;
                                      buf := bufio.NewWriter; size := 0 |}
                              hello)) 0)) EBADF).
  reflexivity.
Defined.

(** X9 (how the error gets there). An [Append] that fails returns
    [(0, 0, err)], keeps [size] and leaves its error in the writer. A
    [Read], [ReadAt] or [Close] whose flush fails returns the error of
    the flush, which stays in the writer; [size] and the logical content
    (file plus buffer) are what they were, and [Close] has not closed
    the handle. *)
Theorem failed_call_leaves_error (s : store) (e : error) :
  (forall p s' n pos,
     Append s p = (s', (n, pos, Some e)) ->
     n = 0 /\ pos = 0 /\ size s' = size s /\ bufio.err (buf s') = Some e)
  /\ (flush_err s = Some e ->
      bufio.err (buf (flush s)) = Some e
      /\ size (flush s) = size s
      /\ logical (flush s) = logical s
      /\ os.closed (File (flush s)) = os.closed (File s)
      /\ (forall pos, Read s pos = (flush s, Err e))
      /\ (forall p off, ReadAt s p off = (flush s, (p, 0, Some e)))
      /\ Close s = (flush s, Some e)).
Proof.
  split.
  - intros p s' n pos HA.
    destruct (Append_failure s p s' n pos e HA) as (-> & -> & Hsz).
    repeat split; auto.
    unfold Append, binary_Write in HA.
    destruct (bufio.Write (File s) (buf s) _) as [[[f1 w1] n1] e1] eqn:W1.
    destruct e1 as [e1|].
    + injection HA as <- <-. cbn [buf].
      now apply Write_error_sticky in W1.
    + destruct (bufio.Write f1 w1 p) as [[[f2 w2] n2] [e2|]] eqn:W2;
        [|discriminate].
      injection HA as <- <-. cbn [buf].
      now apply Write_error_sticky in W2.
  - intros Hf.
    split; [|split; [apply flush_size|split;
               [unfold logical; now rewrite settled_flush|]]].
    + revert Hf. unfold flush_err, flush.
      destruct (bufio.Flush (File s) (buf s)) as [[f w] e'] eqn:F.
      cbn [snd buf]. intros ->. apply Flush_cases in F.
      destruct F as [(Habs & _)|(_ & _ & _ & He)]; [discriminate|assumption].
    + revert Hf. unfold flush_err, flush, Read, ReadAt, Close.
      destruct (bufio.Flush (File s) (buf s)) as [[f w] e'] eqn:F.
      cbn [snd]. intros ->. apply Flush_cases in F.
      destruct F as [(Habs & _)|(_ & -> & _)]; [discriminate|].
      cbn [File]. auto.
Qed.

Lemma failed_call_leaves_error_witness :
  let s := fst (Append {| File := readonly_file; buf := bufio.NewWriter;
                          size := 0 |} hello) in
  bufio.err (buf (flush s)) = Some EBADF
  /\ size (flush s) = size s
  /\ logical (flush s) = logical s
  /\ os.closed (File (flush s)) = os.closed (File s)
  /\ (forall pos, Read s pos = (flush s, Err EBADF))
  /\ (forall p off, ReadAt s p off = (flush s, (p, 0, Some EBADF)))
  /\ Close s = (flush s, Some EBADF).
Proof.
  apply (failed_call_leaves_error
           (fst (Append {| File := readonly_file; buf := bufio.NewWriter;
                           size := 0 |} hello)) EBADF).
  reflexivity.
Defined.

(** X10 (use after [Close]). After a [Close] that returned no error the
    file holds the whole logical content and [size] is what it was; a
    second [Close] returns [os.ErrClosed]; every [Read] returns an error;
    an [Append] whose bytes fit the buffer still returns success, but no
    run of calls ever changes the file again. *)
Theorem after_clean_Close (s : store) :
  snd (Close s) = None ->
  let s' := fst (Close s) in
  os.data (File s') = logical s
  /\ logical s' = logical s
  /\ size s' = size s
  /\ snd (Close s') = Some ErrClosed
  /\ (forall pos, 0 <= pos < 2 ^ 64 ->
        snd (Read s' pos)
        = Err (if pos <? 2 ^ 63 then ErrClosed else ErrNegativeOffset))
  /\ (forall p, (8 + length p <= bufio.defaultBufSize)%nat ->
        snd (Append s' p) = (appended p, size s, None))
  /\ (forall cs, os.data (File (fst (exec_all s' cs))) = logical s).
Proof.
  unfold Close, logical, settled.
  destruct (bufio.Flush (File s) (buf s)) as [[f w] e] eqn:F.
  apply Flush_cases in F.
  destruct F as [(-> & -> & -> & He)|(Hne & _)].
  2:{ destruct e; [discriminate|congruence]. }
  unfold os.Close. rewrite put_closed.
  destruct (os.closed (File s)) eqn:Hc; [discriminate|]. intros _.
  set (D := os.data (os.put (File s) (bufio.buf (buf s)))).
  set (fc := {| os.data := D;
                os.offset := os.offset (os.put (File s) (bufio.buf (buf s)));
                os.flag := os.flag (os.put (File s) (bufio.buf (buf s)));
                os.append := os.append (os.put (File s) (bufio.buf (buf s)));
                os.closed := true;
                os.linked := os.linked (os.put (File s) (bufio.buf (buf s))) |}).
  cbn [fst snd File buf size bufio.buf bufio.NewWriter os.put os.data].
  fold fc.
  set (s' := {| File := fc; buf := bufio.NewWriter; size := size s |}).
  split; [reflexivity|]. split; [reflexivity|]. split; [reflexivity|].
  split; [reflexivity|].
  split; [|split].
  - intros pos Hpos. unfold Read. cbn [File buf s'].
    change (bufio.Flush fc bufio.NewWriter)
      with (fc, bufio.NewWriter, @None error).
    change (make lenWidth) with (Some (repeat Byte.x00 8)). cbv beta iota.
    destruct (pos <? 2 ^ 63) eqn:Hp.
    + apply Z.ltb_lt in Hp. rewrite to_int64_small by lia.
      unfold os.ReadAt.
      assert ((pos <? 0) = false) as -> by (apply Z.ltb_ge; lia).
      reflexivity.
    + apply Z.ltb_ge in Hp. rewrite os_ReadAt_neg; [reflexivity|].
      unfold to_int64.
      replace (pos + 2 ^ 63) with (pos - 2 ^ 63 + 1 * 2 ^ 64) by lia.
      rewrite Z.mod_add, Z.mod_small; lia.
  - intros p Hfit.
    assert (A := Append_buffered s' p eq_refl).
    cbn [s' buf bufio.buf bufio.NewWriter length] in A.
    rewrite (A ltac:(lia)). reflexivity.
  - intros cs. rewrite exec_all_dead; [reflexivity|]. left. reflexivity.
Qed.

Lemma after_clean_Close_witness :
  let s' := fst (Close (fst (Append fresh hello))) in
  os.data (File s') = logical (fst (Append fresh hello))
  /\ snd (Close s') = Some ErrClosed
  /\ snd (Read s' 0) = Err ErrClosed
  /\ snd (Append s' rec_a) = (9, 19, None).
Proof.
  destruct (after_clean_Close (fst (Append fresh hello)) eq_refl)
    as (Hd & _ & _ & Hc & Hr & Ha & _).
  split; [exact Hd|]. split; [exact Hc|]. split.
  - apply (Hr 0). lia.
  - apply (Ha rec_a). apply Nat.leb_le. reflexivity.
Defined.

(** X11 (a handle that cannot be written). Over a handle that is closed
    or not open for writing, no run of [Append], [Read], [ReadAt] and
    [Close] calls changes the bytes of the file; and as soon as bytes
    are buffered, a flush fails, with [os.ErrClosed] on a closed handle
    and [EBADF] otherwise. *)
Theorem nothing_written_through_dead_handle (s : store) (cs : list call) :
  os.closed (File s) = true \/ os.writable (File s) = false ->
  os.data (File (fst (exec_all s cs))) = os.data (File s)
  /\ (bufio.err (buf s) = None -> bufio.buf (buf s) <> [] ->
      flush_err s
      = Some (if os.closed (File s) then ErrClosed else EBADF)).
Proof.
  intros Hd. split; [now apply exec_all_dead|].
  intros He Hb. unfold flush_err, bufio.Flush, bufio.Buffered. rewrite He.
  destruct (bufio.buf (buf s)) as [|x bs] eqn:Eb; [congruence|].
  cbn [length Nat.eqb]. unfold os.Write.
  destruct (os.closed (File s)); [reflexivity|].
  destruct Hd as [Hd|Hd]; [discriminate|]. now rewrite Hd.
Qed.

Lemma nothing_written_through_dead_handle_witness :
  let s := fst (Append {| File := readonly_file; buf := bufio.NewWriter;
                          size := 0 |} hello) in
  os.data (File (fst (exec_all s [Call (Reading (DoRead 0));
                                  Call (Appending rec_a); CallClose])))
  = os.data (File s)
  /\ flush_err s = Some EBADF.
Proof.
  destruct (nothing_written_through_dead_handle
              (fst (Append {| File := readonly_file; buf := bufio.NewWriter;
                              size := 0 |} hello))
              [Call (Reading (DoRead 0)); Call (Appending rec_a); CallClose])
    as (Hd & Hf).
  - right. reflexivity.
  - split; [exact Hd|]. apply Hf; [reflexivity|discriminate].
Defined.

(** X12 (the logical content only grows). On a handle that writes at the
    end of the file, whatever run of [Append], [Read], [ReadAt] and
    [Close] calls is made and whatever they return, the logical content
    after the run is the logical content before it followed by more
    bytes: nothing accepted is ever overwritten or dropped. *)
Theorem logical_content_only_grows (s : store) (cs : list call) :
  at_end (File s) ->
  exists q, logical (fst (exec_all s cs)) = logical s ++ q.
Proof.
  intros He.
  destruct (exec_all_grows cs s) as (q & Hq & _); [|eauto].
  unfold settled. now apply at_end_put.
Qed.

Lemma logical_content_only_grows_witness :
  exists q,
    logical (fst (exec_all fresh [Call (Appending hello);
                                  Call (Reading (DoRead 3)); CallClose;
                                  Call (Appending rec_a)]))
    = logical fresh ++ q.
Proof.
  apply (logical_content_only_grows fresh). reflexivity.
Defined.

(** X13 (size recovered after a clean close). When [Close] returns no
    error, [newStore] over any handle of the file as the store left it
    yields a store whose [size] is the logical end of the closed store,
    buffered bytes included, and whose logical content is the same. *)
Theorem size_recovered_after_Close (s : store) (f' : os.File) :
  snd (Close s) = None -> logical_end s <= maxInt ->
  os.data f' = os.data (File (fst (Close s))) -> os.linked f' = true ->
  exists t, newStore f' = inr t
    /\ size t = logical_end s /\ logical t = logical s.
Proof.
  intros Hc Hb Hd Hl.
  assert (HD : os.data (File (fst (Close s))) = logical s).
  { revert Hc. unfold Close, logical, settled.
    destruct (bufio.Flush (File s) (buf s)) as [[f w] e] eqn:F.
    apply Flush_cases in F.
    destruct F as [(-> & -> & -> & He)|(Hne & _)].
    2:{ destruct e; [discriminate|congruence]. }
    unfold os.Close. destruct (os.closed _); [discriminate|reflexivity]. }
  unfold newStore, os.Stat. rewrite Hl. eexists. split; [reflexivity|].
  split.
  - cbn [size]. rewrite Hd, HD. unfold logical_end, maxInt, len in *.
    rewrite to_int64_small, to_uint64_small; lia.
  - unfold logical at 1. unfold settled.
    cbn [File buf bufio.buf bufio.NewWriter os.put]. now rewrite Hd.
Qed.

Lemma size_recovered_after_Close_witness :
  exists t,
    newStore {| os.data := frames [hello; rec_a]; os.offset := 0;
                os.flag := os.O_RDWR; os.append := true;
                os.closed := false; os.linked := true |} = inr t
    /\ size t = logical_end (fst (appends fresh [hello; rec_a]))
    /\ logical t = logical (fst (appends fresh [hello; rec_a])).
Proof.
  apply (size_recovered_after_Close (fst (appends fresh [hello; rec_a]))).
  - reflexivity.
  - vm_compute. discriminate.
  - reflexivity.
  - reflexivity.
Defined.

Lemma Uint64_short b : (length b < 8)%nat -> binary.Uint64 b = None.
Proof.
  intros H. do 8 (destruct b as [|? b]; [reflexivity|]).
  simpl in H. lia.
Qed.

(** [Read] on a store in working order, case by case, with [make] as
    modelled. *)
Lemma Read_working_cases (s : store) (pos : Z) :
  healthy s -> 0 <= pos -> pos + lenWidth <= maxInt ->
  snd (Read s pos)
  = match stored_len (logical s) pos with
    | None => Err EOF
    | Some l =>
        match make l with
        | None => Panic
        | Some _ =>
            if logical_end s - (pos + lenWidth) <? l then Err EOF
            else Ok (slice (logical s) (pos + lenWidth) (Z.to_nat l))
        end
    end.
Proof.
  intros (Hc & Hf & He) Hpos Hb. unfold maxInt, lenWidth in Hb.
  unfold Read. rewrite Flush_ok; auto; [|unfold os.writable; now rewrite Hf].
  fold (settled s).
  assert (Hc' : os.closed (settled s) = false)
    by (unfold settled; now rewrite put_closed).
  assert (Hr' : os.readable (settled s) = true)
    by (unfold settled, os.readable; now rewrite put_flag, Hf).
  change (make lenWidth) with (Some (repeat Byte.x00 8)). cbv beta iota.
  rewrite to_int64_small by lia.
  rewrite os_ReadAt_open by assumption. cbv zeta.
  fold (logical s). unfold stored_len, logical_end, len, lenWidth.
  set (D := logical s). unfold slice at 1 2 3.
  rewrite repeat_length.
  set (got := firstn 8 (skipn (Z.to_nat pos) D)).
  assert (Hgot : length got = Nat.min 8 (length D - Z.to_nat pos))
    by (unfold got; now rewrite length_firstn, length_skipn).
  destruct (length got <? 8)%nat eqn:Hg.
  { apply Nat.ltb_lt in Hg. now rewrite Uint64_short. }
  apply Nat.ltb_ge in Hg.
  assert (Hlen : length got = 8%nat) by lia.
  rewrite Hlen. cbn [repeat skipn]. rewrite app_nil_r.
  destruct (Uint64_defined got) as (l & HU); [lia|]. rewrite HU.
  destruct (PutUint64_Uint64 got l Hlen HU) as (Hl & _).
  unfold make.
  destruct (l <=? maxAlloc) eqn:Hm; [|reflexivity].
  apply Z.leb_le in Hm. unfold maxAlloc in Hm.
  rewrite to_uint64_small, to_int64_small by lia.
  rewrite os_ReadAt_open by (assumption || lia). cbv zeta.
  fold (logical s). fold D. unfold slice. rewrite repeat_length.
  set (got2 := firstn (Z.to_nat l) (skipn (Z.to_nat (pos + 8)) D)).
  assert (Hgot2 : length got2
                  = Nat.min (Z.to_nat l) (length D - Z.to_nat (pos + 8)))
    by (unfold got2; now rewrite length_firstn, length_skipn).
  destruct (Z.of_nat (length D) - (pos + 8) <? l) eqn:Hs.
  - apply Z.ltb_lt in Hs.
    assert ((length got2 <? Z.to_nat l)%nat = true) as ->
      by (apply Nat.ltb_lt; lia).
    reflexivity.
  - apply Z.ltb_ge in Hs.
    assert ((length got2 <? Z.to_nat l)%nat = false) as ->
      by (apply Nat.ltb_ge; lia).
    assert (Hl2 : length got2 = Z.to_nat l) by lia.
    rewrite <- (repeat_length Byte.x00 (Z.to_nat l)) in Hl2.
    now rewrite Hl2, skipn_all, app_nil_r.
Qed.

(** X14 (what [Read] returns on a store in working order). For a
    position whose prefix lies below 2^63, [Read(pos)] on a store in
    working order whose logical content fits an [int64] returns [io.EOF]
    when fewer than eight bytes are there at [pos]; otherwise, with [l]
    the length they decode to, it panics in [make] when [l] exceeds
    [maxAlloc], and returns the [l] bytes that follow the prefix when
    they are all there and [l] is at most [maxAlloc]. *)
Theorem Read_on_working_store (s : store) (pos : Z) :
  healthy s -> 0 <= pos -> pos + lenWidth <= maxInt ->
  logical_end s <= maxInt ->
  match stored_len (logical s) pos with
  | None => snd (Read s pos) = Err EOF
  | Some l =>
      (maxAlloc < l -> snd (Read s pos) = Panic)
      /\ (l <= maxAlloc -> pos + lenWidth + l <= logical_end s ->
          snd (Read s pos)
          = Ok (slice (logical s) (pos + lenWidth) (Z.to_nat l)))
  end.
Proof.
  intros Hs Hpos Hb _. rewrite (Read_working_cases s pos Hs Hpos Hb).
  destruct (stored_len (logical s) pos) as [l|]; [|reflexivity].
  unfold make. split.
  - intros Hl. apply Z.leb_gt in Hl. now rewrite Hl.
  - intros Hl Hfit. apply Z.leb_le in Hl. rewrite Hl.
    assert ((logical_end s - (pos + lenWidth) <? l) = false) as ->
      by (apply Z.ltb_ge; lia).
    reflexivity.
Qed.

Lemma Read_on_working_store_witness :
  snd (Read (fst (appends fresh [rec_a; rec_bc; rec_d])) 19) = Ok rec_d
  /\ snd (Read (fst (appends fresh [rec_a; rec_bc; rec_d])) 25) = Err EOF
  /\ snd (Read (fst (appends fresh [hello; []; []])) 8) = Panic.
Proof.
  assert (Hs : healthy (fst (appends fresh [rec_a; rec_bc; rec_d])))
    by (repeat split).
  assert (Ht : healthy (fst (appends fresh [hello; []; []])))
    by (repeat split).
  assert (Hnn : forall z, 0 < z -> 0 <= z) by (intros; lia).
  assert (E1 : stored_len (logical (fst (appends fresh [rec_a; rec_bc; rec_d])))
                 19 = Some 1) by (vm_compute; reflexivity).
  assert (E2 : stored_len (logical (fst (appends fresh [rec_a; rec_bc; rec_d])))
                 25 = None) by (vm_compute; reflexivity).
  assert (E3 : stored_len (logical (fst (appends fresh [hello; []; []])))
                 8 = Some 7522537965568948079) by (vm_compute; reflexivity).
  pose proof (Read_on_working_store _ 19 Hs (Hnn 19 eq_refl)) as H1.
  pose proof (Read_on_working_store _ 25 Hs (Hnn 25 eq_refl)) as H2.
  pose proof (Read_on_working_store _ 8 Ht (Hnn 8 eq_refl)) as H3.
  rewrite E1 in H1. rewrite E2 in H2. rewrite E3 in H3.
  split; [|split].
  - destruct H1 as (_ & H1);
      [vm_compute; discriminate|vm_compute; discriminate|].
    rewrite H1; [reflexivity|vm_compute; discriminate
                |vm_compute; discriminate].
  - apply H2; vm_compute; discriminate.
  - destruct H3 as (H3 & _);
      [vm_compute; discriminate|vm_compute; discriminate|].
    apply H3. reflexivity.
Defined.

(** ** The buffer: how much can be waiting *)

Section BufferBound.

Lemma Flush_buf_bound f b f' b' e :
  (length (bufio.buf b) <= bufio.defaultBufSize)%nat ->
  bufio.Flush f b = (f', b', e) ->
  (length (bufio.buf b') <= bufio.defaultBufSize)%nat.
Proof.
  intros Hb F. apply Flush_cases in F.
  destruct F as [(_ & _ & -> & _)|(_ & _ & -> & _)]; [|assumption].
  apply Nat.le_0_l.
Qed.

Lemma Write_buf_bound f b p f' b' n e :
  (length (bufio.buf b) <= bufio.defaultBufSize)%nat ->
  bufio.Write f b p = (f', b', n, e) ->
  (length (bufio.buf b') <= bufio.defaultBufSize)%nat.
Proof.
  intros Hb. unfold bufio.Write.
  assert (HA : (length (bufio.buf b) + bufio.Available b
                <= bufio.defaultBufSize)%nat)
    by (unfold bufio.Available; lia).
  assert (HN : bufio.Available bufio.NewWriter = bufio.defaultBufSize)
    by reflexivity.
  generalize dependent (bufio.Available b). intros A HA.
  destruct (bufio.err b). { intros H. injection H as _ <- _ _. exact Hb. }
  destruct (length p <=? A)%nat eqn:Hfit.
  { apply Nat.leb_le in Hfit. intros H. injection H as _ <- _ _.
    cbn [bufio.buf]. rewrite length_app. lia. }
  destruct (bufio.Buffered b =? 0)%nat.
  { destruct (os.Write f p) as [[f1 n1] [e1|]];
      intros H; injection H as _ <- _ _; exact Hb. }
  assert (Hp1 : (length (bufio.buf b ++ firstn A p)
                 <= bufio.defaultBufSize)%nat).
  { rewrite length_app, length_firstn. lia. }
  generalize dependent (firstn A p). intros p1 Hp1.
  generalize dependent (skipn A p). intros p2.
  destruct (bufio.Flush f _) as [[f1 b1] e1] eqn:F.
  assert (F' := F). apply Flush_buf_bound in F'; [|exact Hp1].
  apply Flush_cases in F. cbn [bufio.buf bufio.err] in F.
  destruct F as [(-> & _ & -> & _)|(Hne & _)].
  - rewrite HN. cbn [bufio.buf bufio.NewWriter app].
    destruct (length p2 <=? bufio.defaultBufSize)%nat eqn:Hfit2.
    { apply Nat.leb_le in Hfit2. intros H. injection H as _ <- _ _.
      exact Hfit2. }
    destruct (os.Write f1 p2) as [[f2 n2] [e2|]];
      intros H; injection H as _ <- _ _; apply Nat.le_0_l.
  - destruct e1; [|congruence]. intros H. injection H as _ <- _ _.
    exact F'.
Qed.

Lemma Append_file s p : exists q, File (fst (Append s p)) = os.put (File s) q.
Proof.
  unfold Append, binary_Write.
  destruct (bufio.Write (File s) (buf s) _) as [[[f1 w1] n1] e1] eqn:W1.
  destruct (Write_file _ _ _ _ _ _ _ W1) as (q1 & ->).
  destruct e1; [now exists q1|].
  destruct (bufio.Write _ w1 p) as [[[f2 w2] n2] e2] eqn:W2.
  destruct (Write_file _ _ _ _ _ _ _ W2) as (q2 & ->).
  exists (q1 ++ q2). destruct e2; cbn [fst File]; now rewrite put_put.
Qed.

Lemma Append_buf_bound s p :
  (length (bufio.buf (buf s)) <= bufio.defaultBufSize)%nat ->
  (length (bufio.buf (buf (fst (Append s p)))) <= bufio.defaultBufSize)%nat.
Proof.
  intros Hb. unfold Append, binary_Write.
  destruct (bufio.Write (File s) (buf s) _) as [[[f1 w1] n1] e1] eqn:W1.
  apply (Write_buf_bound _ _ _ _ _ _ _ Hb) in W1.
  destruct e1; [exact W1|].
  destruct (bufio.Write f1 w1 p) as [[[f2 w2] n2] e2] eqn:W2.
  apply (Write_buf_bound _ _ _ _ _ _ _ W1) in W2.
  destruct e2; exact W2.
Qed.

Lemma flush_file_buf s :
  (exists q, File (flush s) = os.put (File s) q)
  /\ ((length (bufio.buf (buf s)) <= bufio.defaultBufSize)%nat ->
      (length (bufio.buf (buf (flush s))) <= bufio.defaultBufSize)%nat).
Proof.
  unfold flush. destruct (bufio.Flush (File s) (buf s)) as [[f w] e] eqn:F.
  cbn [File buf]. split.
  - apply Flush_cases in F.
    destruct F as [(_ & -> & _)|(_ & -> & _)]; [eauto|now exists []].
  - intros Hb. now apply (Flush_buf_bound _ _ _ _ _ Hb F).
Qed.

Lemma exec_keeps_bound s c :
  at_end (File s) ->
  (length (bufio.buf (buf s)) <= bufio.defaultBufSize)%nat ->
  at_end (File (fst (exec s c)))
  /\ (length (bufio.buf (buf (fst (exec s c)))) <= bufio.defaultBufSize)%nat.
Proof.
  intros He Hb. destruct (flush_file_buf s) as ((qf & Hqf) & Hbf).
  destruct c as [[[pos|b off]|p]|]; cbn [exec step].
  - rewrite (surjective_pairing (Read s pos)). cbn [fst].
    rewrite Read_state, Hqf. split; [now apply at_end_put|auto].
  - rewrite (surjective_pairing (ReadAt s b off)). cbn [fst].
    rewrite ReadAt_state, Hqf. split; [now apply at_end_put|auto].
  - rewrite (surjective_pairing (Append s p)). cbn [fst].
    destruct (Append_file s p) as (q & ->).
    split; [now apply at_end_put|now apply Append_buf_bound].
  - unfold Close. revert Hqf Hbf. unfold flush.
    destruct (bufio.Flush (File s) (buf s)) as [[f w] e].
    cbn [File buf]. intros -> Hbf.
    destruct e; cbn [fst File buf]; [split; [now apply at_end_put|auto]|].
    unfold os.Close. destruct (os.closed _); cbn [fst File buf].
    + split; [now apply at_end_put|auto].
    + split; [|auto].
      assert (H := at_end_put (File s) qf He). unfold at_end in *.
      exact H.
Qed.

Lemma exec_all_keeps_bound cs : forall s,
  at_end (File s) ->
  (length (bufio.buf (buf s)) <= bufio.defaultBufSize)%nat ->
  at_end (File (fst (exec_all s cs)))
  /\ (length (bufio.buf (buf (fst (exec_all s cs))))
      <= bufio.defaultBufSize)%nat.
Proof.
  induction cs as [|c cs IH]; intros s He Hb; [now split|].
  rewrite exec_all_cons. cbn [fst].
  destruct (exec_keeps_bound s c He Hb) as (He1 & Hb1). now apply IH.
Qed.

End BufferBound.

(** X15 ([newStore] does not check the handle). When [os.Stat] on the
    name of the file succeeds, [newStore] returns a store also over a
    handle that is closed or not open for writing. On that store an
    [Append] whose bytes fit the buffer reports success, no run of calls
    ever changes the bytes of the file, and over a closed handle every
    [Read] returns an error. *)
Theorem newStore_does_not_check_the_handle (f : os.File) :
  os.linked f = true ->
  os.closed f = true \/ os.writable f = false ->
  exists s, newStore f = inr s
    /\ (forall p, (8 + length p <= bufio.defaultBufSize)%nat ->
          snd (Append s p) = (appended p, size s, None))
    /\ (forall cs, os.data (File (fst (exec_all s cs))) = os.data f)
    /\ (os.closed f = true ->
        forall pos, exists e, snd (Read s pos) = Err e).
Proof.
  intros Hl Hd. unfold newStore, os.Stat. rewrite Hl.
  eexists. split; [reflexivity|].
  set (s := {| File := f; buf := bufio.NewWriter;
               size := to_uint64 (to_int64 (len (os.data f))) |}).
  split; [|split].
  - intros p Hfit.
    assert (A := Append_buffered s p eq_refl).
    cbn [s buf bufio.buf bufio.NewWriter length] in A.
    rewrite (A ltac:(lia)). reflexivity.
  - intros cs. now rewrite exec_all_dead.
  - intros Hc pos. unfold Read. cbn [s File buf].
    change (bufio.Flush f bufio.NewWriter)
      with (f, bufio.NewWriter, @None error).
    change (make lenWidth) with (Some (repeat Byte.x00 8)). cbv beta iota.
    unfold os.ReadAt. destruct (_ <? 0); [is_err|].
    cbn [repeat]. rewrite Hc. is_err.
Qed.

Lemma newStore_does_not_check_the_handle_witness :
  exists s, newStore readonly_file = inr s
    /\ snd (Append s hello) = (appended hello, size s, None)
    /\ os.data (File (fst (exec_all s [Call (Appending hello);
                                       Call (Reading (DoRead 0));
                                       CallClose])))
       = os.data readonly_file.
Proof.
  destruct (newStore_does_not_check_the_handle readonly_file)
    as (s & Hs & Ha & Hd & _).
  - reflexivity.
  - right. reflexivity.
  - exists s. split; [exact Hs|]. split; [|apply Hd].
    apply Ha. apply Nat.leb_le. reflexivity.
Defined.

(** X16 (how much can be waiting). On a handle that writes at the end of
    the file, starting from a buffer within its capacity (as [newStore]
    leaves it), after any run of [Append], [Read], [ReadAt] and [Close]
    calls the buffer holds at most [defaultBufSize] (4096) bytes, and the
    logical content is the file followed by the buffer: at most 4096
    accepted bytes are ever missing from the file. *)
Theorem unflushed_bytes_bounded (s : store) (cs : list call) :
  at_end (File s) ->
  (length (bufio.buf (buf s)) <= bufio.defaultBufSize)%nat ->
  let s' := fst (exec_all s cs) in
  (length (bufio.buf (buf s')) <= bufio.defaultBufSize)%nat
  /\ logical s' = os.data (File s') ++ bufio.buf (buf s')
  /\ logical_end s' - len (os.data (File s')) <= 4096.
Proof.
  intros He Hb.
  destruct (exec_all_keeps_bound cs s He Hb) as (He' & Hb').
  cbv zeta. set (s' := fst (exec_all s cs)) in *.
  assert (HL : logical s' = os.data (File s') ++ bufio.buf (buf s'))
    by (unfold logical, settled; now apply data_put_at_end).
  split; [assumption|]. split; [assumption|].
  unfold logical_end, len. rewrite HL, length_app.
  assert (Hc : Z.of_nat bufio.defaultBufSize = 4096) by reflexivity.
  lia.
Qed.

Lemma unflushed_bytes_bounded_witness :
  let s' := fst (exec_all fresh [Call (Appending hello);
                                 Call (Appending rec_a)]) in
  (length (bufio.buf (buf s')) <= bufio.defaultBufSize)%nat
  /\ logical s' = os.data (File s') ++ bufio.buf (buf s')
  /\ logical_end s' - len (os.data (File s')) <= 4096.
Proof.
  apply (unflushed_bytes_bounded fresh).
  - reflexivity.
  - apply Nat.le_0_l.
Defined.

